(** * AttenCalc: a gamma-ray attenuation calculator

    A shallow embedding of [CalcAtten.hh] and [CalcAtten.cc], and the
    properties of the nearest-energy lookup, the transmission formula and
    the shielding sequencer.

    Number model.  Every finite [double] is a rational number, so the
    values read from the files (energies, coefficients, density, thickness)
    are of type [Q]; [exp] has no rational value, so a transmitted fraction
    and the running intensity are of type [R].  Arithmetic is exact: the
    rounding of [double] operations, the underflow of [exp] to 0.0 and the
    values [inf] and [nan] are not modelled.  The properties below are
    about which entry a lookup selects, which text is parsed, which value
    enters which product and in which order; a value written with [exp] or
    as a product is the real number that the program's [double]
    approximates.  That a fraction is never 0, or that products may be
    regrouped, holds of the reals and not of the doubles, and is not
    stated. *)

From Stdlib Require Import String Ascii List Bool Arith ZArith Lia.
From Stdlib Require Import QArith Qabs Reals Qreals Lqa Lra.
Import ListNotations.

Local Open Scope string_scope.

(** ** Strings: the [std::string] operations the program uses *)

Module Str.

(** [string::npos + 1] wraps around to 0 in [size_type] arithmetic. *)
Definition next_pos (n : option nat) : nat :=
  match n with
  | Some k => S k
  | None => 0
  end.

(** [s.find(" ", pos)]: the first space at or after [pos], [None] for
    [string::npos]. *)
Definition find_space_from (pos : nat) (s : string) : option nat :=
  String.index pos " " s.

(** [s.find(" ")]. *)
Definition find_space (s : string) : option nat := find_space_from 0 s.

(** [s.find(",")]. *)
Definition find_comma (s : string) : option nat := String.index 0 "," s.

(** [s.substr(pos, count)], [count = None] standing for [string::npos];
    the count is clipped to the end of the string.  The program only calls
    it with [pos] at most the size of [s] (see [find_space_from_lt]), where
    [std::out_of_range] is not thrown. *)
Definition substr (pos : nat) (count : option nat) (s : string) : string :=
  match count with
  | Some c => String.substring pos c s
  | None => String.substring pos (String.length s) s
  end.

Definition newline : ascii := Ascii.ascii_of_nat 10.

(** The lines [while (getline(f, line))] yields on a stream holding [s]:
    a last line needs no terminating newline, and a terminating newline
    starts no further line. *)
Fixpoint getlines (s : string) : list string :=
  match s with
  | EmptyString => []
  | String c s' =>
      if Ascii.eqb c newline then EmptyString :: getlines s'
      else match getlines s' with
           | [] => [String c EmptyString]
           | l :: ls => String c l :: ls
           end
  end.

(** The text of a file with the given lines, each one terminated. *)
Fixpoint unlines (ls : list string) : string :=
  match ls with
  | [] => EmptyString
  | l :: ls' => l ++ String newline (unlines ls')
  end.

End Str.

(** ** Outcomes of a run *)

(** What the program has written to [cout].  Numbers are kept as values:
    their formatting by [operator<<] is not modelled. *)
Inductive event : Type :=
| Msg (text : string)
| MsgSettingEnergy (E : Q)
| MsgCalculating (thickness absorber : string)
| MsgClosest (val atLb atUb : Q)
| MsgUsed (absorber : string) (E Ei MACi : Q)
| MsgTransmitFrac (T : R)
| MsgRemaining (I I_init : R).

(** The ways a call ends without returning to its caller. *)
Inductive fatal : Type :=
| ExitFailure          (* exit(EXIT_FAILURE) *)
| Uncaught             (* an exception nothing catches: std::terminate *)
| Undefined.           (* an access outside a vector: no defined behaviour *)

Inductive result (A : Type) : Type :=
| Ok (a : A)
| Stop (f : fatal).
Arguments Ok {A} a.
Arguments Stop {A} f.

(** A computation: the output written, and how it ended. *)
Definition M (A : Type) : Type := (list event * result A)%type.

Definition ret {A} (a : A) : M A := ([], Ok a).

Definition bind {A B} (m : M A) (k : A -> M B) : M B :=
  match m with
  | (out, Ok a) => let (out', r) := k a in ((out ++ out')%list, r)
  | (out, Stop f) => (out, Stop f)
  end.

Definition print (e : event) : M unit := ([e], Ok tt).

Definition stop {A} (f : fatal) : M A := ([], Stop f).

(** [{cout << text << endl; exit(EXIT_FAILURE);}] *)
Definition die {A} (text : string) : M A := ([Msg text], Stop ExitFailure).

Declare Scope prog_scope.
Delimit Scope prog_scope with prog.
Notation "x <- m ;; k" := (bind m (fun x => k))
  (at level 61, m at next level, right associativity) : prog_scope.
Notation "m ;;; k" := (bind m (fun _ => k))
  (at level 61, right associativity) : prog_scope.

Definition output {A} (m : M A) : list event := fst m.
Definition outcome {A} (m : M A) : result A := snd m.

(** ** [CalcAtten.hh] *)

(** [std::lower_bound] on a whole vector, as an index: the first element
    that does not compare less than [val] (the size when there is none).
    The library asks for a vector partitioned by [< val], which an
    ascending one is; this is what it returns there. *)
Fixpoint lower_bound (vec : list Q) (val : Q) : nat :=
  match vec with
  | [] => 0
  | x :: rest =>
      match (x ?= val)%Q with
      | Lt => S (lower_bound rest val)
      | _ => 0
      end
  end.

(** [std::upper_bound] on a whole vector, as an index: the first element
    that compares greater than [val] (the size when there is none), under
    the same requirement. *)
Fixpoint upper_bound (vec : list Q) (val : Q) : nat :=
  match vec with
  | [] => 0
  | x :: rest =>
      match (val ?= x)%Q with
      | Lt => 0
      | _ => S (upper_bound rest val)
      end
  end.

(** The two positions [Closest] computes, relative to [vec.begin()]. *)
Definition Closest_lb (vec : list Q) (val : Q) : Z :=
  Z.of_nat (lower_bound vec val) - 1.

Definition Closest_ub (vec : list Q) (val : Q) : Z :=
  Z.of_nat (upper_bound vec val).

Definition in_bounds (vec : list Q) (i : Z) : bool :=
  (0 <=? i)%Z && (i <? Z.of_nat (List.length vec))%Z.

(** Reading position [i] of a vector ([*it], [v[i]]): defined only inside
    the vector. *)
Definition deref (vec : list Q) (i : Z) : M Q :=
  if in_bounds vec i then
    match nth_error vec (Z.to_nat i) with
    | Some x => ret x
    | None => stop Undefined
    end
  else stop Undefined.

Local Open Scope prog_scope.

(** [(fabs(atUb - val) > fabs(atLb - val)) ? lb : ub] *)
Definition Closest_pick (lb ub : Z) (atLb atUb val : Q) : Z :=
  match (Qabs (atUb - val) ?= Qabs (atLb - val))%Q with
  | Gt => lb
  | _ => ub
  end.

Definition Closest (vec : list Q) (val : Q) : M Z :=
  let lb := Closest_lb vec val in
  let ub := Closest_ub vec val in
  atLb <- deref vec lb ;;
  atUb <- deref vec ub ;;
  print (MsgClosest val atLb atUb) ;;;
  ret (Closest_pick lb ub atLb atUb val).

Definition DataFilePath (absorber : string) : string :=
  "Data/" ++ absorber ++ "Data.txt".

(** The environment of a run: [stof] of the C++ library ([None] when it
    throws [std::invalid_argument] or [std::out_of_range]; the [float] it
    returns widens to [double] unchanged) and the files that can be opened
    for reading, each with its text. *)
Section Program.

Variable stof : string -> option Q.
Variable fs : string -> option string.

Definition call_stof (s : string) : M Q :=
  match stof s with
  | Some q => ret q
  | None => stop Uncaught
  end.

(** The [while (getline(dataFile, line))] loop of [Density]. *)
Fixpoint Density_loop (lines : list string) : M Q :=
  match lines with
  | [] => die "Error: No density found in data file"
  | line :: rest =>
      match Str.find_space line with
      | None => die "Error: Unexpected data file format"
      | Some n =>
          let lineType := Str.substr 0 (Some n) line in
          let lineArg := Str.substr (n + 1) None line in
          if (lineType =? "Density(g/cm^3):")%string
          then call_stof lineArg
          else Density_loop rest
      end
  end.

Definition Density (absorber : string) : M Q :=
  match fs (DataFilePath absorber) with
  | Some text => Density_loop (Str.getlines text)
  | None => die "Error: File not open"
  end.

(** The [while (getline(dataFile, line))] loop of [MassAttenCoeff], on the
    vectors filled so far.  [lineArg2] is computed and never used; its
    [substr] starts at a found position plus one, or at 0, and cannot
    throw, so it is left out. *)
Fixpoint MassAttenCoeff_loop (lines : list string) (Es MACs : list Q)
  : M (list Q * list Q) :=
  match lines with
  | [] => ret (Es, MACs)
  | line :: rest =>
      match Str.find_space line with
      | None => die "Error: Unexpected data file format"
      | Some n =>
          let lineType := Str.substr 0 (Some n) line in
          let lineArg := Str.substr (n + 1) None line in
          if (lineType =? "MAC(MeV,cm^2/g,cm^2/g):")%string
          then
            let n := Str.find_space lineArg in
            let lineArg0 := Str.substr 0 n lineArg in
            let lineArg1 :=
              Str.substr (Str.next_pos n)
                (Str.find_space_from (Str.next_pos n) lineArg) lineArg in
            e <- call_stof lineArg0 ;;
            m <- call_stof lineArg1 ;;
            MassAttenCoeff_loop rest (Es ++ [e]) (MACs ++ [m])
          else MassAttenCoeff_loop rest Es MACs
      end
  end.

(** The two vectors [MassAttenCoeff] has built when its file is closed. *)
Definition MassAttenCoeff_table (absorber : string) : M (list Q * list Q) :=
  match fs (DataFilePath absorber) with
  | Some text => MassAttenCoeff_loop (Str.getlines text) [] []
  | None => die "Error: File not open"
  end.

Definition MassAttenCoeff (absorber : string) (E : Q) : M Q :=
  tbl <- MassAttenCoeff_table absorber ;;
  let Es := fst tbl in
  let MACs := snd tbl in
  i <- Closest Es (E / 1000) ;;
  Ei <- deref Es i ;;
  MACi <- deref MACs i ;;
  print (MsgUsed absorber E Ei MACi) ;;;
  ret MACi.

(** [exp(-1 * c * rho * t)], as the real number of which the program
    computes a [double]: the program's value is this one rounded, and it
    is 0.0 once this one is under the range of doubles. *)
Definition attenuation (c rho t : Q) : R :=
  exp (-1 * Q2R c * Q2R rho * Q2R t).

Definition Transmit (absorber thickness : string) (E : Q) : M R :=
  t <- call_stof thickness ;;
  rho <- Density absorber ;;
  c <- MassAttenCoeff absorber E ;;
  ret (attenuation c rho t).

(** ** [CalcAtten.cc] *)

(** The variables [I] and [E] of [main].  [I] is the product of the
    fractions taken in the order of the lines, as a real; the program
    rounds each [I * T] to a [double]. *)
Record BeamState : Type := mkBeam { I : R; E : Q }.

Definition I_init : R := 1.

Definition initial : BeamState := mkBeam I_init 0.

(** One turn of the [while (getline(ifs, line))] loop of [main].  The
    [Gamma(keV):] branch calls [stof] twice, once for the message. *)
Definition macro_line (line : string) (st : BeamState) : M BeamState :=
  match Str.find_space line with
  | None => die "Error: Unexpected macro format"
  | Some n =>
      let cmdType := Str.substr 0 (Some n) line in
      let cmdArg := Str.substr (n + 1) None line in
      st1 <- (if (cmdType =? "Gamma(keV):")%string
              then shown <- call_stof cmdArg ;;
                   print (MsgSettingEnergy shown) ;;;
                   e <- call_stof cmdArg ;;
                   ret (mkBeam (I st) e)
              else ret st) ;;
      if (cmdType =? "Shield(type,cm):")%string
      then
        let n := Str.find_comma cmdArg in
        let cmdArg0 := Str.substr 0 n cmdArg in
        let cmdArg1 := Str.substr (Str.next_pos n) None cmdArg in
        print (MsgCalculating cmdArg1 cmdArg0) ;;;
        T <- Transmit cmdArg0 cmdArg1 (E st1) ;;
        let I' := (I st1 * T)%R in
        print (MsgTransmitFrac T) ;;;
        print (MsgRemaining I' I_init) ;;;
        ret (mkBeam I' (E st1))
      else ret st1
  end.

Fixpoint macro_loop (lines : list string) (st : BeamState) : M BeamState :=
  match lines with
  | [] => ret st
  | line :: rest => st' <- macro_line line st ;; macro_loop rest st'
  end.

(** [main], on [argv] ([argc] is its length); the value is what [main]
    returns. *)
Definition main (argv : list string) : M Z :=
  if (List.length argv <? 2)%nat
  then die "Usage: ./CalcAtten <macro>"
  else
    let macroFileName := nth 1 argv EmptyString in
    match fs macroFileName with
    | Some text =>
        macro_loop (Str.getlines text) initial ;;;
        ret 0%Z
    | None => ret 0%Z
    end.

End Program.

(** ** Ascending tables *)

(** The precondition of the lookup: each energy is at most the next one.
    A strictly increasing table, as the data files hold, satisfies it. *)
Fixpoint ascendingb (vec : list Q) : bool :=
  match vec with
  | x :: (y :: _) as rest => Qle_bool x y && ascendingb rest
  | _ => true
  end.

Definition ascending (vec : list Q) : Prop := ascendingb vec = true.

(** No entry of the table equals the query. *)
Definition untabulated (vec : list Q) (val : Q) : Prop :=
  forallb (fun x => negb (Qeq_bool x val)) vec = true.

(** [i] is the largest position whose energy is at most [val]: exactly the
    positions up to [i] hold such energies. *)
Definition largest_index_le (vec : list Q) (val : Q) (i : Z) : Prop :=
  forall j y, nth_error vec j = Some y ->
    ((y <= val)%Q <-> (Z.of_nat j <= i)%Z).

(** [i] is the largest position whose energy is less than [val]. *)
Definition largest_index_lt (vec : list Q) (val : Q) (i : Z) : Prop :=
  forall j y, nth_error vec j = Some y ->
    ((y < val)%Q <-> (Z.of_nat j <= i)%Z).

(** [i] is the smallest position whose energy exceeds [val]: exactly the
    positions from [i] on hold such energies. *)
Definition smallest_index_gt (vec : list Q) (val : Q) (i : Z) : Prop :=
  forall j y, nth_error vec j = Some y ->
    ((val < y)%Q <-> (i <= Z.of_nat j)%Z).

(** Position [i] holds an energy at least as close to [val] as every
    energy of the table. *)
Definition nearest (vec : list Q) (val : Q) (i : Z) : Prop :=
  (0 <= i)%Z /\
  exists x, nth_error vec (Z.to_nat i) = Some x /\
    forall j y, nth_error vec j = Some y ->
      (Qabs (x - val) <= Qabs (y - val))%Q.

(** ** The log of a run *)

(** The fractions the run has reported, one per [Shield(type,cm):] layer
    it has computed, in order. *)
Fixpoint fractions (out : list event) : list R :=
  match out with
  | [] => []
  | MsgTransmitFrac T :: rest => T :: fractions rest
  | _ :: rest => fractions rest
  end.

Definition product (xs : list R) : R := fold_right Rmult 1%R xs.

(** A computation that ends the run instead of returning. *)
Definition fails {A} (m : M A) : Prop := exists f, outcome m = Stop f.

(** A computation that reports no fraction; only [main] reports them. *)
Definition quiet {A} (m : M A) : Prop := fractions (output m) = [].

(** The lines of a script that carry the given label. *)
Definition labelled (text : string) (lines : list string) : list string :=
  filter (fun line => match Str.find_space line with
                      | Some n => (Str.substr 0 (Some n) line =? text)%string
                      | None => false
                      end) lines.

(** The label of a line, when it has one: [cmdType] and [lineType]. *)
Definition label (line : string) : option string :=
  match Str.find_space line with
  | Some n => Some (Str.substr 0 (Some n) line)
  | None => None
  end.

Definition is_label (text line : string) : bool :=
  match label line with
  | Some l => (l =? text)%string
  | None => false
  end.

(** The arguments [Transmit] gets from a [Shield(type,cm):] line:
    [cmdArg0] and [cmdArg1]. *)
Definition shield_args (line : string) : string * string :=
  let cmdArg := Str.substr (Str.next_pos (Str.find_space line)) None line in
  let n := Str.find_comma cmdArg in
  (Str.substr 0 n cmdArg, Str.substr (Str.next_pos n) None cmdArg).

(** ** A sample environment *)

Module Sample.

Definition digit (c : ascii) : option Z :=
  let n := nat_of_ascii c in
  if (48 <=? n)%nat && (n <=? 57)%nat then Some (Z.of_nat (n - 48)) else None.

(** The digits at the head of [s]: their value after [acc], how many they
    are, and what follows them. *)
Fixpoint digits (s : string) (acc : Z) (count : nat) : Z * nat * string :=
  match s with
  | EmptyString => (acc, count, s)
  | String c s' =>
      match digit c with
      | Some d => digits s' (10 * acc + d)%Z (S count)
      | None => (acc, count, s)
      end
  end.

Fixpoint skip_spaces (s : string) : string :=
  match s with
  | String " " s' => skip_spaces s'
  | _ => s
  end.

(** A stand-in for [stof] on plain decimal numerals, with which the
    examples are run: blanks, an optional minus sign, digits with an
    optional fraction; whatever follows is not read, and a text with no
    digit there is refused.  It keeps the decimal value, where
    [std::stof] rounds it to the nearest [float] and also reads a plus
    sign, exponents, hexadecimal numerals, [inf] and [nan]: on a numeral
    that no [float] holds exactly (0.6, 11.35) the two differ, and what an
    example shows there is shown of this function.  The theorems take
    [stof] as a parameter. *)
Definition stof (s : string) : option Q :=
  let s0 := skip_spaces s in
  let '(neg, s1) := match s0 with
                    | String "-" r => (true, r)
                    | _ => (false, s0)
                    end in
  let '(ip, ni, s2) := digits s1 0 0 in
  let '(fp, nf, _) := match s2 with
                      | String "." r => digits r 0 0
                      | _ => (0%Z, 0%nat, s2)
                      end in
  if (ni + nf =? 0)%nat then None
  else
    let scale := (10 ^ Z.of_nat nf)%Z in
    let q := Qred (Qmake (ip * scale + fp) (Z.to_pos scale)) in
    Some (if neg then Qopp q else q).

Definition LeadData : string :=
  Str.unlines
    [ "Density(g/cm^3): 11.35";
      "MAC(MeV,cm^2/g,cm^2/g): 0.5 0.1614 0.0913";
      "MAC(MeV,cm^2/g,cm^2/g): 0.6 0.1248 0.0682";
      "MAC(MeV,cm^2/g,cm^2/g): 0.8 0.0887 0.0464" ].

Definition macro : string :=
  Str.unlines
    [ "Gamma(keV): 662";
      "Shield(type,cm): Lead,1.0" ].

Definition fs (path : string) : option string :=
  if (path =? "Data/LeadData.txt")%string then Some LeadData
  else if (path =? "macro.txt")%string then Some macro
  else None.

End Sample.

(** * Properties *)

(** ** Computations *)

Lemma bind_Ok {A B} (out : list event) (a : A) (k : A -> M B) :
  bind (out, Ok a) k = ((out ++ output (k a))%list, outcome (k a)).
Proof. unfold bind, output, outcome. destruct (k a); reflexivity. Qed.

Lemma bind_Stop {A B} (out : list event) (f : fatal) (k : A -> M B) :
  bind (out, Stop f) k = (out, Stop f).
Proof. reflexivity. Qed.

Lemma bind_ret {A B} (a : A) (k : A -> M B) : bind (ret a) k = k a.
Proof. unfold ret, bind. destruct (k a); reflexivity. Qed.

Lemma bind_die {A B} (text : string) (k : A -> M B) :
  bind (die text) k = die text.
Proof. reflexivity. Qed.

Lemma bind_assoc {A B C} (m : M A) (k : A -> M B) (h : B -> M C) :
  bind (bind m k) h = bind m (fun a => bind (k a) h).
Proof.
  destruct m as [out [a | f]]; simpl; [| reflexivity].
  destruct (k a) as [out' [b | f]]; simpl; [| reflexivity].
  destruct (h b) as [out'' r]. now rewrite app_assoc.
Qed.

Lemma bind_ext {A B} (m : M A) (k k' : A -> M B) :
  (forall a, k a = k' a) -> bind m k = bind m k'.
Proof.
  intros H. destruct m as [out [a | f]]; simpl; [| reflexivity].
  now rewrite H.
Qed.

Lemma outcome_bind {A B} (m : M A) (k : A -> M B) :
  outcome (bind m k) =
  match outcome m with
  | Ok a => outcome (k a)
  | Stop f => Stop f
  end.
Proof.
  destruct m as [out [a | f]]; simpl; [| reflexivity].
  destruct (k a); reflexivity.
Qed.

(** A sequence that returns has returned at each step. *)
Lemma bind_inv_Ok {A B} (m : M A) (k : A -> M B) out b :
  bind m k = (out, Ok b) ->
  exists o1 a o2, m = (o1, Ok a) /\ k a = (o2, Ok b) /\ out = (o1 ++ o2)%list.
Proof.
  destruct m as [o1 [a | f]]; simpl; [| discriminate].
  destruct (k a) as [o2 r] eqn:Hk. intros H. inversion H; subst.
  exists o1, a, o2. auto.
Qed.

Lemma outcome_bind_inv_Ok {A B} (m : M A) (k : A -> M B) b :
  outcome (bind m k) = Ok b ->
  exists a, outcome m = Ok a /\ outcome (k a) = Ok b.
Proof.
  rewrite outcome_bind. destruct (outcome m) as [a | f]; [| discriminate].
  intros H. exists a. auto.
Qed.

(** ** Strings *)

Lemma index_lt_length (pos : nat) (p s : string) (n : nat) :
  p <> EmptyString -> String.index pos p s = Some n -> (n < String.length s)%nat.
Proof.
  intros Hp. revert pos n.
  induction s as [| c s IH]; intros pos n; simpl.
  - destruct pos; [destruct p; [contradiction | discriminate] | discriminate].
  - destruct pos as [| pos].
    + match goal with |- context [if ?b then _ else _] => destruct b end.
      * intros H; inversion H; lia.
      * destruct (String.index 0 p s) as [k |] eqn:Hk; [| discriminate].
        intros H; inversion H; subst. apply IH in Hk. lia.
    + destruct (String.index pos p s) as [k |] eqn:Hk; [| discriminate].
      intros H; inversion H; subst. apply IH in Hk. lia.
Qed.

(** Every [substr] of the program starts inside its string. *)
Lemma find_space_from_lt (pos : nat) (s : string) :
  (Str.next_pos (Str.find_space_from pos s) <= String.length s)%nat.
Proof.
  unfold Str.find_space_from.
  destruct (String.index pos " " s) as [n |] eqn:H; simpl; [| lia].
  apply index_lt_length in H; [lia | discriminate].
Qed.

Lemma find_comma_lt (s : string) :
  (Str.next_pos (Str.find_comma s) <= String.length s)%nat.
Proof.
  unfold Str.find_comma.
  destruct (String.index 0 "," s) as [n |] eqn:H; simpl; [| lia].
  apply index_lt_length in H; [lia | discriminate].
Qed.

(** [getlines] reads back the lines a file was written with. *)
Lemma getlines_line (l rest : string) :
  String.index 0 (String Str.newline EmptyString) l = None ->
  Str.getlines (l ++ String Str.newline rest) = l :: Str.getlines rest.
Proof.
  induction l as [| c l IHl]; intros Hl.
  - reflexivity.
  - cbn [append Str.getlines].
    destruct (Ascii.eqb c Str.newline) eqn:Hc.
    + apply Ascii.eqb_eq in Hc. subst c. simpl in Hl.
      destruct l; discriminate.
    + rewrite IHl; [reflexivity |].
      cbn [String.index String.prefix] in Hl.
      destruct (Ascii.ascii_dec Str.newline c) as [e | _];
        [subst c; rewrite Ascii.eqb_refl in Hc; discriminate |].
      destruct (String.index 0 _ l); [discriminate | reflexivity].
Qed.

Lemma getlines_unlines (ls : list string) :
  Forall (fun l => String.index 0 (String Str.newline EmptyString) l = None) ls ->
  Str.getlines (Str.unlines ls) = ls.
Proof.
  induction 1 as [| l ls Hl _ IH]; [reflexivity |].
  simpl. rewrite getlines_line by assumption. now rewrite IH.
Qed.

(** ** The two bounds on an ascending table *)

Lemma ascending_tail (x : Q) (rest : list Q) :
  ascending (x :: rest) -> ascending rest.
Proof.
  unfold ascending. destruct rest as [| y rest]; [reflexivity |].
  cbn [ascendingb]. intros H. apply andb_true_iff in H. tauto.
Qed.

Lemma ascending_head_le (x : Q) (rest : list Q) :
  ascending (x :: rest) -> forall y, In y rest -> (x <= y)%Q.
Proof.
  revert x. induction rest as [| z rest IH]; intros x Hasc y Hin.
  - destruct Hin.
  - assert (Hxz : (x <= z)%Q).
    { unfold ascending in Hasc. cbn [ascendingb] in Hasc.
      apply andb_true_iff in Hasc. now apply Qle_bool_iff. }
    destruct Hin as [-> | Hin]; [assumption |].
    apply Qle_trans with z; [assumption |].
    apply IH; [| assumption]. now apply ascending_tail in Hasc.
Qed.

Lemma lower_bound_le_length (vec : list Q) (val : Q) :
  (lower_bound vec val <= List.length vec)%nat.
Proof.
  induction vec as [| x rest IH]; simpl; [lia |].
  destruct (x ?= val)%Q; lia.
Qed.

Lemma upper_bound_le_length (vec : list Q) (val : Q) :
  (upper_bound vec val <= List.length vec)%nat.
Proof.
  induction vec as [| x rest IH]; simpl; [lia |].
  destruct (val ?= x)%Q; lia.
Qed.

(** On an ascending table the positions before [lower_bound] are those
    of the energies less than [val]. *)
Lemma lower_bound_spec (vec : list Q) (val : Q) :
  ascending vec ->
  forall j y, nth_error vec j = Some y ->
    ((y < val)%Q <-> (j < lower_bound vec val)%nat).
Proof.
  induction vec as [| x rest IH]; intros Hasc j y Hj.
  - destruct j; discriminate.
  - cbn [lower_bound]. destruct (Qcompare_spec x val) as [Heq | Hlt | Hgt].
    + assert (Hle : (val <= y)%Q).
      { destruct j as [| j]; simpl in Hj.
        - inversion Hj; subst. rewrite Heq. apply Qle_refl.
        - rewrite <- Heq. apply (ascending_head_le _ _ Hasc).
          eapply nth_error_In; eauto. }
      split; [intros H; exfalso; apply (Qlt_not_le _ _ H Hle) | lia].
    + destruct j as [| j]; simpl in Hj.
      * inversion Hj; subst. split; [lia | auto].
      * rewrite (IH (ascending_tail _ _ Hasc) j y Hj). lia.
    + assert (Hle : (val <= y)%Q).
      { apply Qlt_le_weak in Hgt.
        destruct j as [| j]; simpl in Hj.
        - inversion Hj; subst. assumption.
        - apply Qle_trans with x; [assumption |].
          apply (ascending_head_le _ _ Hasc). eapply nth_error_In; eauto. }
      split; [intros H; exfalso; apply (Qlt_not_le _ _ H Hle) | lia].
Qed.

(** On an ascending table the positions from [upper_bound] on are those
    of the energies greater than [val]. *)
Lemma upper_bound_spec (vec : list Q) (val : Q) :
  ascending vec ->
  forall j y, nth_error vec j = Some y ->
    ((val < y)%Q <-> (upper_bound vec val <= j)%nat).
Proof.
  induction vec as [| x rest IH]; intros Hasc j y Hj.
  - destruct j; discriminate.
  - cbn [upper_bound]. destruct (Qcompare_spec val x) as [Heq | Hlt | Hgt].
    + destruct j as [| j]; simpl in Hj.
      * inversion Hj; subst. split; [| lia].
        intros H. rewrite Heq in H. exfalso. apply (Qlt_irrefl _ H).
      * rewrite (IH (ascending_tail _ _ Hasc) j y Hj). lia.
    + split; [lia | intros _].
      destruct j as [| j]; simpl in Hj.
      * inversion Hj; subst. assumption.
      * apply Qlt_le_trans with x; [assumption |].
        apply (ascending_head_le _ _ Hasc). eapply nth_error_In; eauto.
    + destruct j as [| j]; simpl in Hj.
      * inversion Hj; subst. split; [| lia].
        intros H. exfalso. apply (Qlt_irrefl val).
        now apply Qlt_trans with y.
      * rewrite (IH (ascending_tail _ _ Hasc) j y Hj). lia.
Qed.

(** The two bounds part only at entries equal to the query. *)
Lemma bounds_untabulated (vec : list Q) (val : Q) :
  untabulated vec val -> lower_bound vec val = upper_bound vec val.
Proof.
  unfold untabulated.
  induction vec as [| x rest IH]; intros Hun; [reflexivity |].
  cbn [lower_bound upper_bound forallb] in *.
  apply andb_true_iff in Hun. destruct Hun as [Hx Hrest].
  specialize (IH Hrest).
  rewrite <- (Qcompare_antisym x val).
  destruct (Qcompare_spec x val) as [Heq | Hlt | Hgt]; simpl.
  - apply Qeq_bool_iff in Heq. rewrite Heq in Hx. discriminate.
  - now rewrite IH.
  - reflexivity.
Qed.

Lemma Closest_lb_largest_lt (vec : list Q) (val : Q) :
  ascending vec -> largest_index_lt vec val (Closest_lb vec val).
Proof.
  intros Hasc j y Hj. unfold Closest_lb.
  rewrite (lower_bound_spec vec val Hasc j y Hj). lia.
Qed.

Lemma Closest_ub_smallest_gt (vec : list Q) (val : Q) :
  ascending vec -> smallest_index_gt vec val (Closest_ub vec val).
Proof.
  intros Hasc j y Hj. unfold Closest_ub.
  rewrite (upper_bound_spec vec val Hasc j y Hj). lia.
Qed.

(** ** Reads *)

Lemma in_bounds_iff (vec : list Q) (i : Z) :
  in_bounds vec i = true <-> (0 <= i < Z.of_nat (List.length vec))%Z.
Proof. unfold in_bounds. rewrite andb_true_iff, Z.leb_le, Z.ltb_lt. tauto. Qed.

Lemma in_bounds_nth (vec : list Q) (i : Z) :
  in_bounds vec i = true -> exists x, nth_error vec (Z.to_nat i) = Some x.
Proof.
  rewrite in_bounds_iff. intros H.
  destruct (nth_error vec (Z.to_nat i)) as [x |] eqn:Hx; [eauto |].
  apply nth_error_None in Hx. lia.
Qed.

Lemma deref_in (vec : list Q) (i : Z) (x : Q) :
  (0 <= i)%Z -> nth_error vec (Z.to_nat i) = Some x -> deref vec i = ret x.
Proof.
  intros Hi Hx. unfold deref.
  assert (Hb : in_bounds vec i = true).
  { apply in_bounds_iff. split; [assumption |].
    assert (Z.to_nat i < List.length vec)%nat
      by (apply nth_error_Some; congruence). lia. }
  now rewrite Hb, Hx.
Qed.

Lemma deref_out (vec : list Q) (i : Z) :
  in_bounds vec i = false -> deref vec i = stop Undefined.
Proof. intros H. unfold deref. now rewrite H. Qed.

Lemma deref_inv (vec : list Q) (i : Z) (x : Q) :
  outcome (deref vec i) = Ok x ->
  in_bounds vec i = true /\ nth_error vec (Z.to_nat i) = Some x.
Proof.
  unfold deref. destruct (in_bounds vec i); [| discriminate].
  destruct (nth_error vec (Z.to_nat i)); [| discriminate].
  simpl. intros H; inversion H; auto.
Qed.

Lemma deref_outcome (vec : list Q) (i : Z) :
  (exists x, deref vec i = ret x) \/ deref vec i = stop Undefined.
Proof.
  unfold deref. destruct (in_bounds vec i); [| now right].
  destruct (nth_error vec (Z.to_nat i)); [left; eauto | now right].
Qed.

Lemma untabulated_In (vec : list Q) (val x : Q) :
  untabulated vec val -> In x vec -> ~ (x == val)%Q.
Proof.
  unfold untabulated. rewrite forallb_forall. intros H Hin Heq.
  specialize (H x Hin). apply Qeq_bool_iff in Heq. rewrite Heq in H.
  discriminate.
Qed.

Lemma ascending_nth (vec : list Q) :
  ascending vec ->
  forall i j x y, nth_error vec i = Some x -> nth_error vec j = Some y ->
    (i <= j)%nat -> (x <= y)%Q.
Proof.
  induction vec as [| z rest IH]; intros Hasc i j x y Hi Hj Hij.
  - destruct i; discriminate.
  - destruct i as [| i], j as [| j]; simpl in Hi, Hj; try lia.
    + inversion Hi; inversion Hj; subst. apply Qle_refl.
    + inversion Hi; subst. apply (ascending_head_le _ _ Hasc).
      eapply nth_error_In; eauto.
    + apply (IH (ascending_tail _ _ Hasc) i j); auto; lia.
Qed.

(** ** [Closest] *)

Lemma Closest_run (vec : list Q) (val atLb atUb : Q) :
  let lb := Closest_lb vec val in
  let ub := Closest_ub vec val in
  (0 <= lb)%Z -> nth_error vec (Z.to_nat lb) = Some atLb ->
  nth_error vec (Z.to_nat ub) = Some atUb ->
  Closest vec val =
  ([MsgClosest val atLb atUb], Ok (Closest_pick lb ub atLb atUb val)).
Proof.
  intros lb ub Hlb Ha Hb. unfold Closest. fold lb ub.
  rewrite (deref_in vec lb atLb Hlb Ha), bind_ret.
  rewrite (deref_in vec ub atUb) by (subst ub; unfold Closest_ub; lia || assumption).
  rewrite bind_ret. reflexivity.
Qed.

Lemma Closest_inv (vec : list Q) (val : Q) (i : Z) :
  outcome (Closest vec val) = Ok i ->
  let lb := Closest_lb vec val in
  let ub := Closest_ub vec val in
  exists atLb atUb,
    in_bounds vec lb = true /\ nth_error vec (Z.to_nat lb) = Some atLb /\
    in_bounds vec ub = true /\ nth_error vec (Z.to_nat ub) = Some atUb /\
    i = Closest_pick lb ub atLb atUb val.
Proof.
  intros H lb ub. unfold Closest in H. fold lb ub in H.
  apply outcome_bind_inv_Ok in H. destruct H as [a [Ha H]].
  apply outcome_bind_inv_Ok in H. destruct H as [b [Hb H]].
  apply deref_inv in Ha, Hb. destruct Ha as [Ha1 Ha2], Hb as [Hb1 Hb2].
  exists a, b. repeat split; try assumption.
  simpl in H. now inversion H.
Qed.

Lemma Closest_out (vec : list Q) (val : Q) :
  in_bounds vec (Closest_lb vec val) = false \/
  in_bounds vec (Closest_ub vec val) = false ->
  Closest vec val = stop Undefined.
Proof.
  intros H. unfold Closest.
  destruct (deref_outcome vec (Closest_lb vec val)) as [[a Ha] | Ha];
    rewrite Ha; [rewrite bind_ret | reflexivity].
  destruct H as [H | H].
  - rewrite (deref_out _ _ H) in Ha. discriminate.
  - now rewrite (deref_out _ _ H).
Qed.

(** What [Closest] returns is one of its two positions. *)
Lemma Closest_pick_cases (lb ub : Z) (atLb atUb val : Q) :
  ((Qabs (atLb - val) < Qabs (atUb - val))%Q /\
   Closest_pick lb ub atLb atUb val = lb) \/
  ((Qabs (atUb - val) <= Qabs (atLb - val))%Q /\
   Closest_pick lb ub atLb atUb val = ub).
Proof.
  unfold Closest_pick.
  destruct (Qcompare_spec (Qabs (atUb - val)) (Qabs (atLb - val)))
    as [Heq | Hlt | Hgt].
  - right. split; [rewrite Heq; apply Qle_refl | reflexivity].
  - right. split; [now apply Qlt_le_weak | reflexivity].
  - left. split; [assumption | reflexivity].
Qed.

(** X1.  On an ascending table [Closest] never returns the position of an
    entry equal to the query: the entry it reads below is less than the
    query, the one above is greater. *)
Lemma Closest_never_exact (vec : list Q) (val : Q) (i : Z) (x : Q) :
  ascending vec ->
  outcome (Closest vec val) = Ok i ->
  nth_error vec (Z.to_nat i) = Some x ->
  ~ (x == val)%Q.
Proof.
  intros Hasc H Hx.
  destruct (Closest_inv _ _ _ H) as [a [b [Hlb [Ha [Hub [Hb Hi]]]]]].
  apply in_bounds_iff in Hlb, Hub.
  assert (Halt : (a < val)%Q).
  { apply (Closest_lb_largest_lt vec val Hasc _ _ Ha). lia. }
  assert (Hbgt : (val < b)%Q).
  { apply (Closest_ub_smallest_gt vec val Hasc _ _ Hb). lia. }
  destruct (Closest_pick_cases (Closest_lb vec val) (Closest_ub vec val) a b val)
    as [[_ Hp] | [_ Hp]]; rewrite Hp in Hi; subst i;
    rewrite Hx in *; intros Heq.
  - inversion Ha; subst. rewrite Heq in Halt. apply (Qlt_irrefl _ Halt).
  - inversion Hb; subst. rewrite Heq in Hbgt. apply (Qlt_irrefl _ Hbgt).
Qed.

(** C4.  On a non-empty ascending table, [Closest] reads position -1 when
    the query is at most the first energy, and the position one past the
    last when the query is at least the last energy; all its reads are
    inside the table exactly when the query is strictly between the first
    and the last energy, and exactly then it returns an index. *)
Theorem Closest_reads (vec : list Q) (val first last : Q) :
  ascending vec ->
  nth_error vec 0 = Some first ->
  nth_error vec (List.length vec - 1) = Some last ->
  ((val <= first)%Q -> Closest_lb vec val = (-1)%Z) /\
  ((last <= val)%Q -> Closest_ub vec val = Z.of_nat (List.length vec)) /\
  ((in_bounds vec (Closest_lb vec val) = true /\
    in_bounds vec (Closest_ub vec val) = true) <->
   (first < val /\ val < last)%Q) /\
  ((exists i, outcome (Closest vec val) = Ok i) <->
   (first < val /\ val < last)%Q) /\
  (~ (first < val /\ val < last)%Q -> Closest vec val = stop Undefined).
Proof.
  intros Hasc Hfirst Hlast.
  assert (Hlen : (0 < List.length vec)%nat)
    by (apply nth_error_Some; congruence).
  pose proof (lower_bound_spec vec val Hasc _ _ Hfirst) as Hlo.
  pose proof (upper_bound_spec vec val Hasc _ _ Hlast) as Hup.
  pose proof (lower_bound_le_length vec val) as Hlo_len.
  pose proof (upper_bound_le_length vec val) as Hup_len.
  assert (Hin : (in_bounds vec (Closest_lb vec val) = true /\
                 in_bounds vec (Closest_ub vec val) = true) <->
                (first < val /\ val < last)%Q).
  { rewrite !in_bounds_iff, Hlo, Hup. unfold Closest_lb, Closest_ub. lia. }
  split; [| split; [| split; [exact Hin | split]]].
  - intros Hle. unfold Closest_lb.
    assert (~ (0 < lower_bound vec val)%nat).
    { intros H. apply Hlo in H. apply (Qlt_not_le _ _ H Hle). }
    lia.
  - intros Hle. unfold Closest_ub.
    assert (~ (upper_bound vec val <= List.length vec - 1)%nat).
    { intros H. apply Hup in H. apply (Qlt_not_le _ _ H Hle). }
    lia.
  - split.
    + intros [i Hi]. apply Closest_inv in Hi.
      destruct Hi as [a [b [Ha [_ [Hb _]]]]]. apply Hin. now split.
    + intros Hval. apply Hin in Hval. destruct Hval as [Ha Hb].
      destruct (in_bounds_nth _ _ Ha) as [a Hna].
      destruct (in_bounds_nth _ _ Hb) as [b Hnb].
      apply in_bounds_iff in Ha.
      eexists. rewrite (Closest_run vec val a b); [reflexivity | lia | |];
        assumption.
  - intros Hval. apply Closest_out.
    destruct (in_bounds vec (Closest_lb vec val)) eqn:Ha; [| now left].
    destruct (in_bounds vec (Closest_ub vec val)) eqn:Hb; [| now right].
    exfalso. apply Hval. now apply Hin.
Qed.

Lemma Closest_reads_witness :
  ascending [1; 2; 3] /\
  Closest_lb [1; 2; 3] 1 = (-1)%Z /\
  Closest_ub [1; 2; 3] 3 = 3%Z /\
  (exists i, outcome (Closest [1; 2; 3] (3 # 2)) = Ok i).
Proof.
  assert (Hasc : ascending [1; 2; 3]) by reflexivity.
  split; [exact Hasc |].
  split; [| split].
  - apply (Closest_reads [1; 2; 3] 1 1 3 Hasc eq_refl eq_refl).
    apply Qle_refl.
  - apply (Closest_reads [1; 2; 3] 3 1 3 Hasc eq_refl eq_refl).
    apply Qle_refl.
  - apply (Closest_reads [1; 2; 3] (3 # 2) 1 3 Hasc eq_refl eq_refl).
    split; reflexivity.
Defined.

(** C2.  A query equal to a tabulated energy does not get that energy's
    index: on the table 1, 2, 3 the query 2, held at index 1, gets index 2,
    whose energy 3 is not the nearest one. *)
Theorem Closest_exact_query_misses :
  nth_error [1; 2; 3] 1 = Some 2 /\
  nearest [1; 2; 3] 2 1 /\
  Closest [1; 2; 3] 2 = ([MsgClosest 2 1 3], Ok 2%Z) /\
  ~ nearest [1; 2; 3] 2 2.
Proof.
  split; [reflexivity |]. split; [| split; [reflexivity |]].
  - split; [lia |]. exists 2. split; [reflexivity |].
    intros j y _. setoid_replace (2 - 2)%Q with 0%Q by reflexivity.
    apply Qabs_nonneg.
  - intros [_ [x [Hx H]]]. simpl in Hx. inversion Hx; subst x.
    specialize (H 1%nat 2 eq_refl). vm_compute in H. now apply H.
Qed.

(** C3, as stated, fails where the query is a tabulated energy: on the
    table 1, 2, 3 with query 2 the lower position is 0, not the largest
    position holding an energy at most 2, and not the upper position
    less one; and below the table, at query 0, nothing is returned. *)
Lemma Closest_lb_tabulated_query :
  Closest_lb [1; 2; 3] 2 = 0%Z /\
  Closest_ub [1; 2; 3] 2 = 2%Z /\
  Closest_lb [1; 2; 3] 2 <> Z.pred (Closest_ub [1; 2; 3] 2) /\
  ~ largest_index_le [1; 2; 3] 2 (Closest_lb [1; 2; 3] 2) /\
  Closest [1; 2; 3] 0 = stop Undefined.
Proof.
  repeat split; try reflexivity.
  - vm_compute. discriminate.
  - intros H. specialize (H 1%nat 2 eq_refl).
    assert (Hle : (2 <= 2)%Q) by apply Qle_refl.
    apply H in Hle. vm_compute in Hle. now apply Hle.
Qed.

Lemma Qabs_below (a val : Q) : (a <= val)%Q -> (Qabs (a - val) == val - a)%Q.
Proof.
  intros H. transitivity (- (a - val))%Q; [apply Qabs_neg; Lqa.lra | ring].
Qed.

Lemma Qabs_above (b val : Q) : (val <= b)%Q -> (Qabs (b - val) == b - val)%Q.
Proof. intros H. apply Qabs_pos. Lqa.lra. Qed.

(** C3, amended.  On an ascending table and for a query that is not a
    tabulated energy, the lower position of [Closest] is the largest one
    whose energy is at most the query and is the upper position less one,
    the upper position is the smallest one whose energy exceeds the query,
    and when both are inside the table [Closest] returns the one whose
    energy is nearer to the query, the upper one when they are equally
    near. *)
Theorem Closest_selects_neighbour (vec : list Q) (val : Q) :
  ascending vec ->
  untabulated vec val ->
  largest_index_le vec val (Closest_lb vec val) /\
  Closest_lb vec val = Z.pred (Closest_ub vec val) /\
  smallest_index_gt vec val (Closest_ub vec val) /\
  forall atLb atUb,
    in_bounds vec (Closest_lb vec val) = true ->
    nth_error vec (Z.to_nat (Closest_lb vec val)) = Some atLb ->
    in_bounds vec (Closest_ub vec val) = true ->
    nth_error vec (Z.to_nat (Closest_ub vec val)) = Some atUb ->
    ((Qabs (atLb - val) < Qabs (atUb - val))%Q ->
     outcome (Closest vec val) = Ok (Closest_lb vec val)) /\
    ((Qabs (atUb - val) <= Qabs (atLb - val))%Q ->
     outcome (Closest vec val) = Ok (Closest_ub vec val)).
Proof.
  intros Hasc Hun.
  split; [| split; [| split; [now apply Closest_ub_smallest_gt |]]].
  - intros j y Hj.
    rewrite <- (Closest_lb_largest_lt vec val Hasc j y Hj).
    split; [| apply Qlt_le_weak].
    intros Hle. apply Qle_lt_or_eq in Hle. destruct Hle as [Hlt | Heq];
      [assumption |].
    exfalso. apply (untabulated_In vec val y Hun); [| assumption].
    eapply nth_error_In; eauto.
  - unfold Closest_lb, Closest_ub. rewrite (bounds_untabulated vec val Hun).
    lia.
  - intros a b Hlb Ha Hub Hb. apply in_bounds_iff in Hlb.
    rewrite (Closest_run vec val a b) by (lia || assumption).
    cbn [outcome snd].
    destruct (Closest_pick_cases (Closest_lb vec val) (Closest_ub vec val)
                a b val) as [[Hc Hp] | [Hc Hp]]; rewrite Hp; split; intros H;
      try reflexivity; exfalso.
    + apply (Qlt_not_le _ _ Hc H).
    + apply (Qlt_not_le _ _ H Hc).
Qed.

Lemma Closest_selects_neighbour_witness :
  ascending [1; 2; 3] /\ untabulated [1; 2; 3] (3 # 2) /\
  Closest_lb [1; 2; 3] (3 # 2) = Z.pred (Closest_ub [1; 2; 3] (3 # 2)) /\
  outcome (Closest [1; 2; 3] (3 # 2)) = Ok 1%Z.
Proof.
  assert (Hasc : ascending [1; 2; 3]) by reflexivity.
  assert (Hun : untabulated [1; 2; 3] (3 # 2)) by reflexivity.
  destruct (Closest_selects_neighbour [1; 2; 3] (3 # 2) Hasc Hun)
    as [_ [Hpred [_ Hpick]]].
  split; [exact Hasc | split; [exact Hun | split; [exact Hpred |]]].
  apply (Hpick 1 2 eq_refl eq_refl eq_refl eq_refl).
  vm_compute. discriminate.
Defined.

(** X2.  On an ascending table and for a query that is not a tabulated
    energy, the index [Closest] returns holds an energy nearest to the
    query among all the entries. *)
Lemma Closest_nearest_untabulated (vec : list Q) (val : Q) (i : Z) :
  ascending vec ->
  untabulated vec val ->
  outcome (Closest vec val) = Ok i ->
  nearest vec val i.
Proof.
  intros Hasc Hun H.
  destruct (Closest_inv _ _ _ H) as [a [b [Hlb [Ha [Hub [Hb Hi]]]]]].
  apply in_bounds_iff in Hlb, Hub.
  assert (Halt : (a < val)%Q).
  { apply (Closest_lb_largest_lt vec val Hasc _ _ Ha). lia. }
  assert (Hbgt : (val < b)%Q).
  { apply (Closest_ub_smallest_gt vec val Hasc _ _ Hb). lia. }
  assert (Hnear : forall j y, nth_error vec j = Some y ->
            (Qabs (a - val) <= Qabs (y - val))%Q \/
            (Qabs (b - val) <= Qabs (y - val))%Q).
  { intros j y Hj.
    destruct (Qlt_le_dec y val) as [Hy | Hy].
    - left. assert (Hya : (y <= a)%Q).
      { apply (ascending_nth vec Hasc j _ y a Hj Ha).
        apply (Closest_lb_largest_lt vec val Hasc _ _ Hj) in Hy. lia. }
      rewrite (Qabs_below a val), (Qabs_below y val) by Lqa.lra. Lqa.lra.
    - right. assert (Hyv : (val < y)%Q).
      { apply Qle_lt_or_eq in Hy. destruct Hy as [Hy | Hy]; [assumption |].
        exfalso. apply (untabulated_In vec val y Hun).
        - eapply nth_error_In; eauto.
        - now symmetry. }
      assert (Hby : (b <= y)%Q).
      { apply (ascending_nth vec Hasc _ j b y Hb Hj).
        apply (Closest_ub_smallest_gt vec val Hasc _ _ Hj) in Hyv. lia. }
      rewrite (Qabs_above b val), (Qabs_above y val) by Lqa.lra. Lqa.lra. }
  destruct (Closest_pick_cases (Closest_lb vec val) (Closest_ub vec val) a b val)
    as [[Hc Hp] | [Hc Hp]]; rewrite Hp in Hi; subst i.
  - split; [lia |]. exists a. split; [assumption |].
    intros j y Hj. destruct (Hnear j y Hj) as [Hn | Hn]; [assumption |].
    apply Qlt_le_weak in Hc. now apply Qle_trans with (Qabs (b - val)).
  - split; [unfold Closest_ub; lia |]. exists b. split; [assumption |].
    intros j y Hj. destruct (Hnear j y Hj) as [Hn | Hn]; [| assumption].
    now apply Qle_trans with (Qabs (a - val)).
Qed.

Lemma Closest_in_bounds (vec : list Q) (val : Q) (i : Z) :
  outcome (Closest vec val) = Ok i ->
  in_bounds vec i = true.
Proof.
  intros H. destruct (Closest_inv _ _ _ H) as [a [b [Hlb [_ [Hub [_ Hi]]]]]].
  destruct (Closest_pick_cases (Closest_lb vec val) (Closest_ub vec val) a b val)
    as [[_ Hp] | [_ Hp]]; rewrite Hp in Hi; now subst i.
Qed.

(** ** The transmission formula *)

Lemma attenuation_exp (c rho t : Q) :
  attenuation c rho t = exp (- (Q2R c * Q2R rho * Q2R t))%R.
Proof. unfold attenuation. f_equal. ring. Qed.

Section ProgramFacts.

Variable stof : string -> option Q.
Variable fs : string -> option string.

Lemma call_stof_Some (s : string) (q : Q) :
  stof s = Some q -> call_stof stof s = ret q.
Proof. intros H. unfold call_stof. now rewrite H. Qed.

Lemma call_stof_None (s : string) :
  stof s = None -> call_stof stof s = stop Uncaught.
Proof. intros H. unfold call_stof. now rewrite H. Qed.

Lemma call_stof_inv (s : string) (q : Q) :
  outcome (call_stof stof s) = Ok q -> stof s = Some q.
Proof.
  unfold call_stof. destruct (stof s); simpl; intros H; now inversion H.
Qed.

Lemma MassAttenCoeff_outcome (absorber : string) (E : Q)
      (Es MACs : list Q) (i : Z) (c : Q) :
  outcome (MassAttenCoeff_table stof fs absorber) = Ok (Es, MACs) ->
  outcome (Closest Es (E / 1000)) = Ok i ->
  nth_error MACs (Z.to_nat i) = Some c ->
  outcome (MassAttenCoeff stof fs absorber E) = Ok c.
Proof.
  intros Htbl Hi Hc. unfold MassAttenCoeff.
  rewrite outcome_bind, Htbl. cbn [fst snd].
  rewrite outcome_bind, Hi.
  pose proof (Closest_in_bounds _ _ _ Hi) as Hb.
  destruct (in_bounds_nth _ _ Hb) as [Ei HEi].
  apply in_bounds_iff in Hb.
  rewrite (deref_in Es i Ei), bind_ret by (lia || assumption).
  rewrite (deref_in MACs i c), bind_ret by (lia || assumption).
  reflexivity.
Qed.

Lemma MassAttenCoeff_inv (absorber : string) (E c : Q) :
  outcome (MassAttenCoeff stof fs absorber E) = Ok c ->
  exists Es MACs i,
    outcome (MassAttenCoeff_table stof fs absorber) = Ok (Es, MACs) /\
    outcome (Closest Es (E / 1000)) = Ok i /\
    nth_error MACs (Z.to_nat i) = Some c.
Proof.
  unfold MassAttenCoeff. intros H.
  apply outcome_bind_inv_Ok in H. destruct H as [[Es MACs] [Htbl H]].
  cbn [fst snd] in H.
  apply outcome_bind_inv_Ok in H. destruct H as [i [Hi H]].
  apply outcome_bind_inv_Ok in H. destruct H as [Ei [HEi H]].
  apply outcome_bind_inv_Ok in H. destruct H as [MACi [HMACi H]].
  simpl in H. inversion H; subst MACi.
  apply deref_inv in HMACi. exists Es, MACs, i. tauto.
Qed.

Lemma Transmit_outcome (absorber thickness : string) (E t rho c : Q) :
  stof thickness = Some t ->
  outcome (Density stof fs absorber) = Ok rho ->
  outcome (MassAttenCoeff stof fs absorber E) = Ok c ->
  outcome (Transmit stof fs absorber thickness E) = Ok (attenuation c rho t).
Proof.
  intros Ht Hrho Hc. unfold Transmit.
  rewrite (call_stof_Some _ _ Ht), bind_ret.
  rewrite outcome_bind, Hrho, outcome_bind, Hc. reflexivity.
Qed.

Lemma Transmit_inv (absorber thickness : string) (E : Q) (T : R) :
  outcome (Transmit stof fs absorber thickness E) = Ok T ->
  exists t rho c,
    stof thickness = Some t /\
    outcome (Density stof fs absorber) = Ok rho /\
    outcome (MassAttenCoeff stof fs absorber E) = Ok c /\
    T = attenuation c rho t.
Proof.
  unfold Transmit. intros H.
  apply outcome_bind_inv_Ok in H. destruct H as [t [Ht H]].
  apply outcome_bind_inv_Ok in H. destruct H as [rho [Hrho H]].
  apply outcome_bind_inv_Ok in H. destruct H as [c [Hc H]].
  simpl in H. inversion H. apply call_stof_inv in Ht.
  exists t, rho, c. auto.
Qed.

Lemma MassAttenCoeff_loop_lengths (lines : list string) :
  forall Es MACs Es' MACs',
    List.length Es = List.length MACs ->
    outcome (MassAttenCoeff_loop stof lines Es MACs) = Ok (Es', MACs') ->
    List.length Es' = List.length MACs'.
Proof.
  induction lines as [| line rest IH]; intros Es MACs Es' MACs' Hlen H.
  - simpl in H. inversion H; now subst.
  - cbn [MassAttenCoeff_loop] in H.
    destruct (Str.find_space line); [| discriminate].
    destruct (_ =? _)%string; [| now apply (IH Es MACs)].
    apply outcome_bind_inv_Ok in H. destruct H as [e [_ H]].
    apply outcome_bind_inv_Ok in H. destruct H as [m [_ H]].
    apply (IH (Es ++ [e])%list (MACs ++ [m])%list); [| assumption].
    rewrite !length_app. simpl. lia.
Qed.

(** [Transmit] does return when the energy, in MeV, is strictly between
    the first and the last tabulated energy. *)
Lemma Transmit_returns (absorber thickness : string) (E : Q)
      (rho t first last : Q) (Es MACs : list Q) :
  outcome (Density stof fs absorber) = Ok rho ->
  outcome (MassAttenCoeff_table stof fs absorber) = Ok (Es, MACs) ->
  ascending Es ->
  nth_error Es 0 = Some first ->
  nth_error Es (List.length Es - 1) = Some last ->
  (first < E / 1000 /\ E / 1000 < last)%Q ->
  stof thickness = Some t ->
  exists i c,
    outcome (Closest Es (E / 1000)) = Ok i /\
    nth_error MACs (Z.to_nat i) = Some c /\
    outcome (Transmit stof fs absorber thickness E) = Ok (attenuation c rho t).
Proof.
  intros Hrho Htbl Hasc Hfirst Hlast Hin Ht.
  assert (Hlen : List.length Es = List.length MACs).
  { unfold MassAttenCoeff_table in Htbl.
    destruct (fs (DataFilePath absorber)); [| discriminate].
    now apply (MassAttenCoeff_loop_lengths (Str.getlines s) [] [] Es MACs). }
  assert (HC : exists i, outcome (Closest Es (E / 1000)) = Ok i).
  { assert (Hb : in_bounds Es (Closest_lb Es (E / 1000)) = true /\
                 in_bounds Es (Closest_ub Es (E / 1000)) = true).
    { rewrite !in_bounds_iff.
      pose proof (lower_bound_spec Es (E / 1000) Hasc _ _ Hfirst) as Hlo.
      pose proof (upper_bound_spec Es (E / 1000) Hasc _ _ Hlast) as Hup.
      pose proof (lower_bound_le_length Es (E / 1000)).
      pose proof (upper_bound_le_length Es (E / 1000)).
      destruct Hin as [H1 H2]. apply Hlo in H1. apply Hup in H2.
      unfold Closest_lb, Closest_ub. lia. }
    destruct Hb as [Ha Hb].
    destruct (in_bounds_nth _ _ Ha) as [a Hna].
    destruct (in_bounds_nth _ _ Hb) as [b Hnb].
    apply in_bounds_iff in Ha.
    eexists. rewrite (Closest_run Es (E / 1000) a b); [reflexivity | lia | |];
      assumption. }
  destruct HC as [i Hi].
  pose proof (Closest_in_bounds _ _ _ Hi) as Hb. apply in_bounds_iff in Hb.
  destruct (nth_error MACs (Z.to_nat i)) as [c |] eqn:Hc.
  - exists i, c. split; [assumption | split; [assumption |]].
    apply Transmit_outcome; try assumption.
    now apply (MassAttenCoeff_outcome absorber E Es MACs i c).
  - apply nth_error_None in Hc. lia.
Qed.

(** C1.  When the data file of the material yields the density [rho] and
    an ascending table [(Es, MACs)], the thickness text parses to [t], and
    the lookup of [E / 1000] in [Es] returns the index [i] at which [MACs]
    holds [c], then [Transmit] returns [exp (- c * rho * t)]. *)
Theorem Transmit_formula (absorber thickness : string) (E : Q)
        (rho t c : Q) (Es MACs : list Q) (i : Z) :
  outcome (Density stof fs absorber) = Ok rho ->
  outcome (MassAttenCoeff_table stof fs absorber) = Ok (Es, MACs) ->
  ascending Es ->
  stof thickness = Some t ->
  outcome (Closest Es (E / 1000)) = Ok i ->
  nth_error MACs (Z.to_nat i) = Some c ->
  outcome (Transmit stof fs absorber thickness E) =
  Ok (exp (- (Q2R c * Q2R rho * Q2R t)))%R.
Proof.
  intros Hrho Htbl _ Ht Hi Hc. rewrite <- attenuation_exp.
  apply Transmit_outcome; try assumption.
  now apply (MassAttenCoeff_outcome absorber E Es MACs i c).
Qed.

End ProgramFacts.

(** ** The shielding sequencer *)

Lemma fractions_app (o1 o2 : list event) :
  fractions (o1 ++ o2) = (fractions o1 ++ fractions o2)%list.
Proof.
  induction o1 as [| e o1 IH]; [reflexivity |].
  destruct e; simpl; now rewrite IH.
Qed.

Lemma product_app (xs ys : list R) :
  product (xs ++ ys) = (product xs * product ys)%R.
Proof.
  unfold product. induction xs as [| x xs IH]; simpl.
  - ring.
  - rewrite IH. ring.
Qed.

Lemma is_label_true (text line : string) :
  is_label text line = true <-> label line = Some text.
Proof.
  unfold is_label. destruct (label line) as [l |].
  - rewrite String.eqb_eq. split; [intros ->; reflexivity | congruence].
  - split; discriminate.
Qed.

Section SequencerFacts.

Variable stof : string -> option Q.
Variable fs : string -> option string.

Lemma macro_line_unseparated (line : string) (st : BeamState) :
  label line = None ->
  macro_line stof fs line st = die "Error: Unexpected macro format".
Proof.
  unfold label, macro_line. destruct (Str.find_space line); [discriminate |].
  reflexivity.
Qed.

Lemma macro_line_other (line l : string) (st : BeamState) :
  label line = Some l ->
  l <> "Gamma(keV):" -> l <> "Shield(type,cm):" ->
  macro_line stof fs line st = ret st.
Proof.
  unfold label, macro_line. destruct (Str.find_space line) as [n |];
    [| discriminate].
  intros H Hg Hs.
  assert (Hl : Str.substr 0 (Some n) line = l) by (injection H; auto).
  rewrite Hl.
  apply String.eqb_neq in Hg, Hs. rewrite Hg, Hs. reflexivity.
Qed.

(** A [Shield(type,cm):] line leaves the energy alone and multiplies the
    intensity by what [Transmit] returns. *)
Lemma macro_line_Shield (line : string) (st : BeamState) :
  label line = Some "Shield(type,cm):" ->
  macro_line stof fs line st =
  (let (absorber, thickness) := shield_args line in
   print (MsgCalculating thickness absorber) ;;;
   T <- Transmit stof fs absorber thickness (E st) ;;
   print (MsgTransmitFrac T) ;;;
   print (MsgRemaining (I st * T)%R I_init) ;;;
   ret (mkBeam (I st * T)%R (E st))).
Proof.
  unfold label, macro_line, shield_args.
  destruct (Str.find_space line) as [n |]; [| discriminate].
  intros H.
  assert (Hl : Str.substr 0 (Some n) line = "Shield(type,cm):")
    by (injection H; auto).
  rewrite Hl. cbn [Str.next_pos].
  replace (S n) with (n + 1)%nat by lia.
  change ("Shield(type,cm):" =? "Gamma(keV):")%string with false.
  cbv iota. rewrite bind_ret. rewrite String.eqb_refl. reflexivity.
Qed.

Lemma macro_line_Gamma (line : string) (st : BeamState) :
  label line = Some "Gamma(keV):" ->
  macro_line stof fs line st =
  (let cmdArg := Str.substr (Str.next_pos (Str.find_space line)) None line in
   shown <- call_stof stof cmdArg ;;
   print (MsgSettingEnergy shown) ;;;
   e <- call_stof stof cmdArg ;;
   ret (mkBeam (I st) e)).
Proof.
  unfold label, macro_line.
  destruct (Str.find_space line) as [n |]; [| discriminate].
  intros H.
  assert (Hl : Str.substr 0 (Some n) line = "Gamma(keV):")
    by (injection H; auto).
  rewrite Hl. cbn [Str.next_pos].
  replace (S n) with (n + 1)%nat by lia.
  rewrite String.eqb_refl.
  change ("Gamma(keV):" =? "Shield(type,cm):")%string with false.
  cbv iota zeta.
  destruct (call_stof stof _) as [o [q | f]] eqn:Hq; [| reflexivity].
  unfold call_stof in Hq. destruct (stof _); inversion Hq; subst.
  reflexivity.
Qed.

Lemma macro_loop_app (pre post : list string) (st : BeamState) :
  macro_loop stof fs (pre ++ post) st =
  bind (macro_loop stof fs pre st) (macro_loop stof fs post).
Proof.
  revert st. induction pre as [| line pre IH]; intros st.
  - cbn [app macro_loop]. now rewrite bind_ret.
  - cbn [app macro_loop]. rewrite bind_assoc. apply bind_ext.
    intros st'. apply IH.
Qed.

End SequencerFacts.

Lemma quiet_bind {A B} (m : M A) (k : A -> M B) :
  quiet m -> (forall a, quiet (k a)) -> quiet (bind m k).
Proof.
  unfold quiet. destruct m as [out [a | f]]; simpl; intros Hm Hk;
    [| assumption].
  specialize (Hk a). destruct (k a) as [out' r]. simpl in *.
  now rewrite fractions_app, Hm, Hk.
Qed.

Lemma quiet_deref (vec : list Q) (i : Z) : quiet (deref vec i).
Proof.
  unfold deref. destruct (in_bounds vec i); [| reflexivity].
  destruct (nth_error vec (Z.to_nat i)); reflexivity.
Qed.

Lemma quiet_Closest (vec : list Q) (val : Q) : quiet (Closest vec val).
Proof.
  unfold Closest.
  apply quiet_bind; [apply quiet_deref | intros a].
  apply quiet_bind; [apply quiet_deref | intros b].
  apply quiet_bind; [reflexivity | intros _; reflexivity].
Qed.

Section Quiet.

Variable stof : string -> option Q.
Variable fs : string -> option string.

Lemma quiet_call_stof (s : string) : quiet (call_stof stof s).
Proof. unfold call_stof. destruct (stof s); reflexivity. Qed.

Lemma quiet_Density (absorber : string) : quiet (Density stof fs absorber).
Proof.
  unfold Density. destruct (fs (DataFilePath absorber)) as [text |];
    [| reflexivity].
  induction (Str.getlines text) as [| line rest IH]; [reflexivity |].
  cbn [Density_loop]. destruct (Str.find_space line); [| reflexivity].
  destruct (_ =? _)%string; [apply quiet_call_stof | exact IH].
Qed.

Lemma quiet_MassAttenCoeff_loop (lines : list string) (Es MACs : list Q) :
  quiet (MassAttenCoeff_loop stof lines Es MACs).
Proof.
  revert Es MACs. induction lines as [| line rest IH]; intros Es MACs;
    [reflexivity |].
  cbn [MassAttenCoeff_loop]. destruct (Str.find_space line); [| reflexivity].
  destruct (_ =? _)%string; [| apply IH].
  apply quiet_bind; [apply quiet_call_stof | intros e].
  apply quiet_bind; [apply quiet_call_stof | intros m]. apply IH.
Qed.

Lemma quiet_MassAttenCoeff (absorber : string) (E : Q) :
  quiet (MassAttenCoeff stof fs absorber E).
Proof.
  unfold MassAttenCoeff. apply quiet_bind.
  - unfold MassAttenCoeff_table.
    destruct (fs (DataFilePath absorber)); [| reflexivity].
    apply quiet_MassAttenCoeff_loop.
  - intros tbl. apply quiet_bind; [apply quiet_Closest | intros i].
    apply quiet_bind; [apply quiet_deref | intros Ei].
    apply quiet_bind; [apply quiet_deref | intros MACi].
    apply quiet_bind; [reflexivity | intros _; reflexivity].
Qed.

Lemma quiet_Transmit (absorber thickness : string) (E : Q) :
  quiet (Transmit stof fs absorber thickness E).
Proof.
  unfold Transmit.
  apply quiet_bind; [apply quiet_call_stof | intros t].
  apply quiet_bind; [apply quiet_Density | intros rho].
  apply quiet_bind; [apply quiet_MassAttenCoeff | intros c]. reflexivity.
Qed.

End Quiet.

Section Sequencer.

Variable stof : string -> option Q.
Variable fs : string -> option string.

(** What one line that is processed to its end does to the beam and adds
    to the reported fractions. *)
Lemma macro_line_effect (line : string) (st st' : BeamState)
      (out : list event) :
  macro_line stof fs line st = (out, Ok st') ->
  (is_label "Shield(type,cm):" line = true /\
   E st' = E st /\
   exists T,
     outcome (Transmit stof fs (fst (shield_args line))
                (snd (shield_args line)) (E st)) = Ok T /\
     fractions out = [T] /\ I st' = (I st * T)%R) \/
  (is_label "Shield(type,cm):" line = false /\
   fractions out = [] /\ I st' = I st /\
   (is_label "Gamma(keV):" line = false -> E st' = E st)).
Proof.
  intros H. destruct (label line) as [l |] eqn:Hl.
  - destruct (string_dec l "Shield(type,cm):") as [-> | Hs].
    + left. split; [now apply is_label_true |].
      rewrite (macro_line_Shield stof fs line st Hl) in H.
      destruct (shield_args line) as [absorber thickness]. cbn [fst snd].
      apply bind_inv_Ok in H. destruct H as [o1 [[] [o2 [H1 [H _out]]]]].
      inversion H1; subst o1. clear H1.
      apply bind_inv_Ok in H. destruct H as [o3 [T [o4 [HT [H Ho2]]]]].
      simpl in H. inversion H; subst. cbn [E I].
      split; [reflexivity |]. exists T.
      split; [now rewrite HT |].
      split; [| reflexivity].
      pose proof (quiet_Transmit stof fs absorber thickness (E st)) as Hq.
      unfold quiet in Hq. rewrite HT in Hq. simpl in Hq.
      cbn [app fractions]. rewrite fractions_app, Hq. reflexivity.
    + right.
      assert (Hnot : is_label "Shield(type,cm):" line = false).
      { unfold is_label. rewrite Hl. now apply String.eqb_neq. }
      split; [exact Hnot |].
      destruct (string_dec l "Gamma(keV):") as [-> | Hg].
      * rewrite (macro_line_Gamma stof fs line st Hl) in H. cbv zeta in H.
        unfold call_stof in H. destruct (stof _) as [q |]; [| discriminate].
        rewrite !bind_ret in H. simpl in H. inversion H; subst.
        cbn [fractions I]. repeat split.
        intros Hf. apply is_label_true in Hl. congruence.
      * rewrite (macro_line_other stof fs line l st Hl Hg Hs) in H.
        inversion H; subst. repeat split.
  - rewrite (macro_line_unseparated stof fs line st Hl) in H. discriminate.
Qed.

Lemma labelled_cons (text line : string) (rest : list string) :
  labelled text (line :: rest) =
  if is_label text line then line :: labelled text rest
  else labelled text rest.
Proof.
  unfold labelled, is_label, label. cbn [filter].
  destruct (Str.find_space line); reflexivity.
Qed.

(** The invariant of the loop of [main]: the intensity is the one the loop
    started with times the fractions reported since, one for each
    [Shield(type,cm):] line. *)
Lemma macro_loop_invariant (lines : list string) (st st' : BeamState)
      (out : list event) :
  macro_loop stof fs lines st = (out, Ok st') ->
  I st' = (I st * product (fractions out))%R /\
  List.length (fractions out) =
  List.length (labelled "Shield(type,cm):" lines) /\
  (labelled "Gamma(keV):" lines = [] -> E st' = E st).
Proof.
  revert st out. induction lines as [| line rest IH]; intros st out H.
  - simpl in H. inversion H; subst. simpl. repeat split. unfold product.
    simpl. ring.
  - cbn [macro_loop] in H. apply bind_inv_Ok in H.
    destruct H as [o1 [st1 [o2 [H1 [H2 ->]]]]].
    apply IH in H2. destruct H2 as [HI [Hlen HE]].
    rewrite fractions_app, product_app, length_app, !labelled_cons.
    apply macro_line_effect in H1.
    destruct H1 as [[Hs [HE1 [T [_ [Hf HI1]]]]] | [Hs [Hf [HI1 HE1]]]];
      rewrite Hs, Hf.
    + split; [| split].
      * rewrite HI, HI1. unfold product. simpl. ring.
      * simpl. now rewrite Hlen.
      * destruct (is_label "Gamma(keV):" line); [discriminate |].
        intros Hg. rewrite (HE Hg). exact HE1.
    + split; [| split].
      * rewrite HI, HI1. unfold product. simpl. ring.
      * simpl. exact Hlen.
      * destruct (is_label "Gamma(keV):" line); [discriminate |].
        intros Hg. rewrite (HE Hg). now apply HE1.
Qed.

(** Two turns of the loop on the same [Shield(type,cm):] line. *)
Lemma macro_loop_twice (line : string) (st : BeamState) (T : R) :
  is_label "Shield(type,cm):" line = true ->
  outcome (Transmit stof fs (fst (shield_args line))
             (snd (shield_args line)) (E st)) = Ok T ->
  exists out,
    macro_loop stof fs [line; line] st =
    (out, Ok (mkBeam (I st * T * T)%R (E st))) /\
    fractions out = [T; T].
Proof.
  intros Hs HT. apply is_label_true in Hs.
  assert (Hstep : forall st0, E st0 = E st ->
            exists o, macro_line stof fs line st0 =
                      (o, Ok (mkBeam (I st0 * T)%R (E st0))) /\
                      fractions o = [T]).
  { intros st0 HE. rewrite (macro_line_Shield stof fs line st0 Hs).
    destruct (shield_args line) as [absorber thickness]. cbn [fst snd] in HT.
    rewrite HE.
    pose proof (quiet_Transmit stof fs absorber thickness (E st)) as Hq.
    unfold quiet in Hq.
    destruct (Transmit stof fs absorber thickness (E st)) as [o r].
    simpl in HT, Hq. subst r.
    eexists. split; [reflexivity |].
    cbn [app fractions]. rewrite fractions_app, Hq. reflexivity. }
  destruct (Hstep st eq_refl) as [o1 [H1 Hf1]].
  destruct (Hstep (mkBeam (I st * T)%R (E st)) eq_refl) as [o2 [H2 Hf2]].
  cbn [I E] in H2.
  exists (o1 ++ o2 ++ [])%list. split.
  - cbn [macro_loop]. rewrite H1, bind_Ok. rewrite H2.
    unfold output, outcome. cbn [fst snd]. rewrite bind_Ok.
    reflexivity.
  - rewrite !fractions_app, Hf1, Hf2. reflexivity.
Qed.

End Sequencer.

(** ** Fatal errors *)

Lemma fails_bind_l {A B} (m : M A) (k : A -> M B) :
  fails m -> fails (bind m k).
Proof. intros [f H]. exists f. now rewrite outcome_bind, H. Qed.

Lemma fails_bind_r {A B} (m : M A) (k : A -> M B) :
  (forall a, fails (k a)) -> fails (bind m k).
Proof.
  intros H. unfold fails. rewrite outcome_bind.
  destruct (outcome m) as [a | f]; [apply H | eauto].
Qed.

Lemma fails_die {A} (text : string) : fails (@die A text).
Proof. now exists ExitFailure. Qed.

Section FatalErrors.

Variable stof : string -> option Q.
Variable fs : string -> option string.

Lemma MassAttenCoeff_loop_app (pre post : list string) (Es MACs : list Q) :
  MassAttenCoeff_loop stof (pre ++ post) Es MACs =
  (tbl <- MassAttenCoeff_loop stof pre Es MACs ;;
   MassAttenCoeff_loop stof post (fst tbl) (snd tbl)).
Proof.
  revert Es MACs. induction pre as [| line pre IH]; intros Es MACs.
  - cbn [app MassAttenCoeff_loop]. now rewrite bind_ret.
  - cbn [app MassAttenCoeff_loop].
    destruct (Str.find_space line); [| reflexivity].
    destruct (_ =? _)%string; [| apply IH].
    rewrite bind_assoc. apply bind_ext. intros e.
    rewrite bind_assoc. apply bind_ext. intros m. apply IH.
Qed.

Lemma Density_unopened (absorber : string) :
  fs (DataFilePath absorber) = None ->
  Density stof fs absorber = die "Error: File not open".
Proof. intros H. unfold Density. now rewrite H. Qed.

Lemma MassAttenCoeff_unopened (absorber : string) (E : Q) :
  fs (DataFilePath absorber) = None ->
  MassAttenCoeff stof fs absorber E = die "Error: File not open".
Proof.
  intros H. unfold MassAttenCoeff, MassAttenCoeff_table. now rewrite H.
Qed.

(** X6.  A layer of a material whose data file does not open ends the run
    with the message that the file is not open, once its thickness has
    been read. *)
Lemma Transmit_unopened (absorber thickness : string) (E t : Q) :
  fs (DataFilePath absorber) = None ->
  stof thickness = Some t ->
  Transmit stof fs absorber thickness E = die "Error: File not open".
Proof.
  intros H Ht. unfold Transmit.
  rewrite (call_stof_Some stof _ _ Ht), bind_ret.
  now rewrite (Density_unopened _ H).
Qed.

(** X5.  A data file with no density record, all of whose lines have a
    label, ends the run with the message that no density was found; so
    does an empty file. *)
Lemma Density_loop_missing (lines : list string) :
  labelled "Density(g/cm^3):" lines = [] ->
  Forall (fun line => Str.find_space line <> None) lines ->
  Density_loop stof lines = die "Error: No density found in data file".
Proof.
  induction lines as [| line rest IH]; intros Hno Hsep; [reflexivity |].
  inversion Hsep as [| ? ? Hline Hrest]; subst.
  unfold labelled in Hno. cbn [filter] in Hno. cbn [Density_loop].
  destruct (Str.find_space line) as [n |]; [| contradiction].
  destruct (_ =? _)%string; [discriminate |]. now apply IH.
Qed.

(** The script that does not open: [main] has no [else] for it. *)
Lemma main_script_unopened (prog path : string) :
  fs path = None -> main stof fs [prog; path] = ret 0%Z.
Proof. intros H. unfold main. cbn. now rewrite H. Qed.

Lemma main_usage (argv : list string) :
  (List.length argv < 2)%nat ->
  main stof fs argv = die "Usage: ./CalcAtten <macro>".
Proof.
  intros H. unfold main. apply Nat.ltb_lt in H. now rewrite H.
Qed.

Lemma MassAttenCoeff_loop_fails (line : string) (lines : list string) :
  Str.find_space line = None -> In line lines ->
  forall Es MACs, fails (MassAttenCoeff_loop stof lines Es MACs).
Proof.
  intros Hline Hin. apply in_split in Hin. destruct Hin as [pre [post ->]].
  intros Es MACs. rewrite MassAttenCoeff_loop_app. apply fails_bind_r.
  intros tbl. cbn [MassAttenCoeff_loop]. rewrite Hline. apply fails_die.
Qed.

Lemma macro_loop_fails (line : string) (lines : list string) :
  Str.find_space line = None -> In line lines ->
  forall st, fails (macro_loop stof fs lines st).
Proof.
  intros Hline Hin. apply in_split in Hin. destruct Hin as [pre [post ->]].
  intros st. rewrite macro_loop_app. apply fails_bind_r.
  intros st'. cbn [macro_loop]. unfold macro_line. rewrite Hline.
  rewrite bind_die. apply fails_die.
Qed.

End FatalErrors.

(** ** The run of a script *)

Section Script.

Variable stof : string -> option Q.
Variable fs : string -> option string.

(** C5.  When the loop of [main] has processed the lines [pre] of a
    script, the intensity is the initial one, 1, times the product of the
    fractions reported, one for each [Shield(type,cm):] line of [pre]; with
    no such line it is still 1; and processing one more
    [Shield(type,cm):] line twice, of fraction [T], multiplies it by [T]
    twice. *)
Theorem intensity_product (pre : list string) (out : list event)
        (st : BeamState) :
  macro_loop stof fs pre initial = (out, Ok st) ->
  I_init = 1%R /\
  I st = (I_init * product (fractions out))%R /\
  List.length (fractions out) =
  List.length (labelled "Shield(type,cm):" pre) /\
  (labelled "Shield(type,cm):" pre = [] -> I st = I_init) /\
  (forall line T,
     is_label "Shield(type,cm):" line = true ->
     outcome (Transmit stof fs (fst (shield_args line))
                (snd (shield_args line)) (E st)) = Ok T ->
     exists out2,
       macro_loop stof fs (pre ++ [line; line]) initial =
       ((out ++ out2)%list, Ok (mkBeam (I st * T * T)%R (E st))) /\
       fractions out2 = [T; T]).
Proof.
  intros H. destruct (macro_loop_invariant stof fs _ _ _ _ H)
    as [HI [Hlen _]]. cbn [initial I] in HI.
  split; [reflexivity |]. split; [exact HI |]. split; [exact Hlen |].
  split.
  - intros Hno. rewrite Hno in Hlen. rewrite HI.
    destruct (fractions out); [| discriminate]. unfold product. simpl. ring.
  - intros line T Hs HT.
    destruct (macro_loop_twice stof fs line st T Hs HT) as [out2 [H2 Hf]].
    exists out2. split; [| exact Hf].
    rewrite macro_loop_app, H, bind_Ok, H2. reflexivity.
Qed.

(** C7.  A line whose label is neither [Gamma(keV):] nor
    [Shield(type,cm):] writes nothing, raises no error and leaves the beam
    as it was; the loop goes on with the next line. *)
Theorem unrecognized_line_ignored (line l : string) (rest : list string)
        (st : BeamState) :
  label line = Some l ->
  l <> "Gamma(keV):" ->
  l <> "Shield(type,cm):" ->
  macro_line stof fs line st = ([], Ok st) /\
  macro_loop stof fs (line :: rest) st = macro_loop stof fs rest st.
Proof.
  intros Hl Hg Hs.
  pose proof (macro_line_other stof fs line l st Hl Hg Hs) as H.
  split; [exact H |]. cbn [macro_loop]. now rewrite H, bind_ret.
Qed.

(** C8.  A line with no space is fatal.  In the script it ends the run
    with the message of a malformed script, whatever the beam is, unless an
    earlier line has ended it; in a data file it ends each of the two scans
    that reaches it with the message of a malformed record, so that no
    layer of that material is ever computed. *)
Theorem unseparated_line_fatal (line : string) :
  Str.find_space line = None ->
  (forall st,
     macro_line stof fs line st = die "Error: Unexpected macro format") /\
  (forall pre post st,
     macro_loop stof fs (pre ++ line :: post) st =
     (macro_loop stof fs pre st ;;; die "Error: Unexpected macro format")) /\
  (forall prog path text,
     fs path = Some text -> In line (Str.getlines text) ->
     fails (main stof fs [prog; path])) /\
  (forall rest,
     Density_loop stof (line :: rest) =
     die "Error: Unexpected data file format") /\
  (forall pre post Es MACs,
     MassAttenCoeff_loop stof (pre ++ line :: post) Es MACs =
     (MassAttenCoeff_loop stof pre Es MACs ;;;
      die "Error: Unexpected data file format")) /\
  (forall absorber text thickness E,
     fs (DataFilePath absorber) = Some text ->
     In line (Str.getlines text) ->
     fails (Transmit stof fs absorber thickness E)).
Proof.
  intros Hline.
  assert (Hstep : forall st,
            macro_line stof fs line st = die "Error: Unexpected macro format").
  { intros st. unfold macro_line. now rewrite Hline. }
  split; [exact Hstep |]. split; [| split; [| split; [| split]]].
  - intros pre post st. rewrite macro_loop_app. apply bind_ext.
    intros st'. cbn [macro_loop]. now rewrite Hstep, bind_die.
  - intros prog path text Hopen Hin. unfold main. cbn. rewrite Hopen.
    apply fails_bind_l. now apply (macro_loop_fails stof fs line).
  - intros rest. cbn [Density_loop]. now rewrite Hline.
  - intros pre post Es MACs. rewrite MassAttenCoeff_loop_app.
    apply bind_ext. intros tbl. cbn [MassAttenCoeff_loop]. now rewrite Hline.
  - intros absorber text thickness E Hopen Hin. unfold Transmit.
    apply fails_bind_r. intros t. apply fails_bind_r. intros rho.
    apply fails_bind_l. unfold MassAttenCoeff. apply fails_bind_l.
    unfold MassAttenCoeff_table. rewrite Hopen.
    now apply (MassAttenCoeff_loop_fails stof line).
Qed.




End Script.

(** ** Runs in the sample environment *)

Lemma Transmit_formula_witness :
  outcome (Closest [1 # 2; 3 # 5; 4 # 5] (662 / 1000)) = Ok 1%Z /\
  outcome (Transmit Sample.stof Sample.fs "Lead" "1.0" 662) =
  Ok (exp (- (Q2R (78 # 625) * Q2R (227 # 20) * Q2R 1)))%R.
Proof.
  split; [reflexivity |].
  apply (Transmit_formula Sample.stof Sample.fs "Lead" "1.0" 662
           (227 # 20) 1 (78 # 625)
           [1 # 2; 3 # 5; 4 # 5] [807 # 5000; 78 # 625; 887 # 10000] 1);
    reflexivity.
Defined.

Lemma intensity_product_witness :
  exists (T : R) (out : list event),
    macro_loop Sample.stof Sample.fs
      ["Gamma(keV): 662"; "Shield(type,cm): Lead,1.0";
       "Shield(type,cm): Lead,1.0"] initial =
    (out, Ok (mkBeam (I_init * T * T)%R 662)) /\
    fractions out = [T; T].
Proof.
  pose (T := attenuation (78 # 625) (227 # 20) 1).
  destruct (intensity_product Sample.stof Sample.fs ["Gamma(keV): 662"]
              [MsgSettingEnergy 662] (mkBeam I_init 662) eq_refl)
    as [_ [_ [_ [_ Htwice]]]].
  destruct (Htwice "Shield(type,cm): Lead,1.0" T eq_refl) as [out2 [H Hf]].
  - apply Transmit_outcome; reflexivity.
  - exists T, ([MsgSettingEnergy 662] ++ out2)%list. split; [exact H |].
    exact Hf.
Defined.

Lemma unrecognized_line_ignored_witness :
  macro_line Sample.stof Sample.fs "Neutron(keV): 14000" initial =
  ([], Ok initial).
Proof.
  apply (unrecognized_line_ignored Sample.stof Sample.fs
           "Neutron(keV): 14000" "Neutron(keV):" [] initial eq_refl);
    discriminate.
Defined.

Lemma unseparated_line_fatal_witness :
  macro_line Sample.stof Sample.fs "Gamma(keV):662" initial =
  die "Error: Unexpected macro format" /\
  Density_loop Sample.stof ["Density(g/cm^3):11.35"] =
  die "Error: Unexpected data file format".
Proof.
  destruct (unseparated_line_fatal Sample.stof Sample.fs "Gamma(keV):662"
              eq_refl) as [Hscript _].
  destruct (unseparated_line_fatal Sample.stof Sample.fs
              "Density(g/cm^3):11.35" eq_refl) as [_ [_ [_ [Hdata _]]]].
  split; [apply Hscript | apply Hdata].
Defined.


(** C6.  A script that cannot be opened does not end the run with a
    failure: [main] writes nothing and returns 0.  [Density] and
    [MassAttenCoeff] do end the run when their file does not open (see
    [Transmit_unopened]); [main] has no such branch. *)
Theorem main_unopened_script_returns_0 :
  Sample.fs "absent.txt" = None /\
  main Sample.stof Sample.fs ["./CalcAtten"; "absent.txt"] = ([], Ok 0%Z).
Proof. split; reflexivity. Qed.

(** The same defect in a run: with energies 0.25, 0.5 and 1 MeV in the
    table, values that the text, [float] and [double] all hold exactly,
    [Gamma(keV): 500] asks for the tabulated 0.5 MeV, and the lookup
    answers with the coefficient of 0.25 MeV. *)
Lemma tabulated_500keV_misses_its_entry :
  let data := fun _ : string =>
    Some (Str.unlines
            [ "Density(g/cm^3): 11.35";
              "MAC(MeV,cm^2/g,cm^2/g): 0.25 0.5 0.25";
              "MAC(MeV,cm^2/g,cm^2/g): 0.5 0.125 0.0625";
              "MAC(MeV,cm^2/g,cm^2/g): 1 0.0625 0.03125" ]) in
  outcome (MassAttenCoeff_table Sample.stof data "Lead") =
  Ok ([1 # 4; 1 # 2; 1], [1 # 2; 1 # 8; 1 # 16]) /\
  (500 / 1000 == 1 # 2)%Q /\
  outcome (MassAttenCoeff Sample.stof data "Lead" 500) = Ok (1 # 2).
Proof. repeat split. Qed.

(** The whole sample run: one layer of lead at 662 keV. *)
Lemma sample_run :
  fractions (output (main Sample.stof Sample.fs ["./CalcAtten"; "macro.txt"]))
  = [attenuation (78 # 625) (227 # 20) 1] /\
  outcome (main Sample.stof Sample.fs ["./CalcAtten"; "macro.txt"]) = Ok 0%Z.
Proof. split; reflexivity. Qed.

(** * More of the lookup *)

Lemma Closest_never_exact_witness : ~ (2 == 3 # 2)%Q.
Proof.
  apply (Closest_never_exact [1; 2; 3] (3 # 2) 1 2); reflexivity.
Defined.

Lemma Closest_nearest_untabulated_witness : nearest [1; 2; 3] (7 # 5) 0.
Proof.
  apply (Closest_nearest_untabulated [1; 2; 3] (7 # 5) 0); reflexivity.
Defined.

Lemma Closest_few_entries (vec : list Q) (val : Q) :
  (List.length vec <= 1)%nat ->
  Closest vec val = stop Undefined.
Proof.
  intros Hlen. apply Closest_out.
  destruct vec as [| x [| y rest]]; [now left | | simpl in Hlen; lia].
  unfold Closest_lb, Closest_ub. cbn [lower_bound upper_bound].
  rewrite <- (Qcompare_antisym x val).
  destruct (x ?= val)%Q; simpl; auto.
Qed.

(** X3.  On a table with fewer than two entries one of the two reads of
    [Closest] is outside the vector, whatever the query: the read before
    the first entry, or the read past the last. *)
Theorem Closest_short_table (vec : list Q) (val : Q) :
  (List.length vec <= 1)%nat ->
  (in_bounds vec (Closest_lb vec val) = false \/
   in_bounds vec (Closest_ub vec val) = false) /\
  outcome (Closest vec val) = Stop Undefined.
Proof.
  intros Hlen. split; [| now rewrite (Closest_few_entries vec val Hlen)].
  destruct vec as [| x [| y rest]]; [now left | | simpl in Hlen; lia].
  unfold Closest_lb, Closest_ub. cbn [lower_bound upper_bound].
  rewrite <- (Qcompare_antisym x val).
  destruct (x ?= val)%Q; simpl; auto.
Qed.

Lemma Closest_short_table_witness :
  outcome (Closest [] 1) = Stop Undefined /\
  outcome (Closest [3 # 5] (662 / 1000)) = Stop Undefined.
Proof.
  split.
  - apply (Closest_short_table [] 1). simpl. lia.
  - apply (Closest_short_table [3 # 5] (662 / 1000)). simpl. lia.
Defined.

Lemma Density_loop_missing_witness :
  Density_loop Sample.stof [] = die "Error: No density found in data file" /\
  Density_loop Sample.stof ["MAC(MeV,cm^2/g,cm^2/g): 0.5 0.1614 0.0913"] =
  die "Error: No density found in data file".
Proof.
  split.
  - apply (Density_loop_missing Sample.stof []); [reflexivity | constructor].
  - apply (Density_loop_missing Sample.stof
             ["MAC(MeV,cm^2/g,cm^2/g): 0.5 0.1614 0.0913"]);
      [reflexivity | repeat constructor; discriminate].
Defined.

Lemma Transmit_unopened_witness :
  Transmit Sample.stof Sample.fs "Gold" "1.0" 662 =
  die "Error: File not open".
Proof.
  apply (Transmit_unopened Sample.stof Sample.fs "Gold" "1.0" 662 1);
    reflexivity.
Defined.

(** * More of the data files *)

Section DataFiles.

Variable stof : string -> option Q.
Variable fs : string -> option string.

(** X4.  [Density] answers with the first density record and reads no
    further: after lines that have a label other than the density label,
    the first density line decides the result, whatever follows it. *)
Theorem Density_first_record (pre post : list string) (line : string)
        (n : nat) :
  Forall (fun l => exists lbl, label l = Some lbl /\
                               lbl <> "Density(g/cm^3):") pre ->
  Str.find_space line = Some n ->
  Str.substr 0 (Some n) line = "Density(g/cm^3):" ->
  Density_loop stof (pre ++ line :: post) =
  call_stof stof (Str.substr (n + 1) None line).
Proof.
  intros Hpre Hn Hlbl. induction Hpre as [| l pre [lbl [Hl Hne]] _ IH].
  - cbn [app Density_loop]. rewrite Hn, Hlbl. reflexivity.
  - cbn [app Density_loop]. unfold label in Hl.
    destruct (Str.find_space l) as [k |]; [| discriminate].
    assert (Hk : Str.substr 0 (Some k) l = lbl) by (injection Hl; auto).
    rewrite Hk. apply String.eqb_neq in Hne. rewrite Hne. exact IH.
Qed.

(** Each coefficient record adds one entry to each vector. *)
Lemma MassAttenCoeff_loop_grows (lines : list string) :
  forall Es MACs Es' MACs',
    outcome (MassAttenCoeff_loop stof lines Es MACs) = Ok (Es', MACs') ->
    List.length Es' =
    (List.length Es +
     List.length (labelled "MAC(MeV,cm^2/g,cm^2/g):" lines))%nat /\
    List.length MACs' =
    (List.length MACs +
     List.length (labelled "MAC(MeV,cm^2/g,cm^2/g):" lines))%nat.
Proof.
  induction lines as [| line rest IH]; intros Es MACs Es' MACs' H.
  - simpl in H. inversion H; subst. simpl. lia.
  - cbn [MassAttenCoeff_loop] in H. unfold labelled. cbn [filter].
    fold (labelled "MAC(MeV,cm^2/g,cm^2/g):" rest).
    destruct (Str.find_space line); [| discriminate].
    destruct (_ =? _)%string.
    + apply outcome_bind_inv_Ok in H. destruct H as [e [_ H]].
      apply outcome_bind_inv_Ok in H. destruct H as [m [_ H]].
      apply IH in H. rewrite !length_app in H. simpl in *. lia.
    + now apply IH.
Qed.

(** X7.  The table [MassAttenCoeff] builds from a file it reads to the end
    has one energy and one coefficient for each coefficient record of the
    file, so the two vectors have the same size. *)
Theorem MassAttenCoeff_table_sizes (absorber text : string)
        (Es MACs : list Q) :
  fs (DataFilePath absorber) = Some text ->
  outcome (MassAttenCoeff_table stof fs absorber) = Ok (Es, MACs) ->
  List.length Es =
  List.length (labelled "MAC(MeV,cm^2/g,cm^2/g):" (Str.getlines text)) /\
  List.length MACs = List.length Es.
Proof.
  intros Hopen Htbl. unfold MassAttenCoeff_table in Htbl.
  rewrite Hopen in Htbl. apply MassAttenCoeff_loop_grows in Htbl.
  simpl in Htbl. lia.
Qed.

(** X8.  A data file with fewer than two coefficient records serves no
    layer: whatever the energy, the lookup of [MassAttenCoeff] reads
    outside the table. *)
Theorem MassAttenCoeff_short_table (absorber text : string) (E : Q)
        (Es MACs : list Q) :
  fs (DataFilePath absorber) = Some text ->
  (List.length (labelled "MAC(MeV,cm^2/g,cm^2/g):" (Str.getlines text)) <= 1)%nat ->
  outcome (MassAttenCoeff_table stof fs absorber) = Ok (Es, MACs) ->
  outcome (MassAttenCoeff stof fs absorber E) = Stop Undefined.
Proof.
  intros Hopen Hfew Htbl.
  assert (Hlen : (List.length Es <= 1)%nat).
  { unfold MassAttenCoeff_table in Htbl. rewrite Hopen in Htbl.
    apply MassAttenCoeff_loop_grows in Htbl. simpl in Htbl. lia. }
  unfold MassAttenCoeff. rewrite outcome_bind, Htbl. cbn [fst snd].
  now rewrite (Closest_few_entries Es (E / 1000) Hlen).
Qed.

End DataFiles.

Lemma Density_first_record_witness :
  Density_loop Sample.stof
    ["MAC(MeV,cm^2/g,cm^2/g): 0.5 0.1614 0.0913"; "Density(g/cm^3): 11.35";
     "Density(g/cm^3): 19.3"; "no-space-here"] =
  ret (227 # 20).
Proof.
  apply (Density_first_record Sample.stof
           ["MAC(MeV,cm^2/g,cm^2/g): 0.5 0.1614 0.0913"]
           ["Density(g/cm^3): 19.3"; "no-space-here"]
           "Density(g/cm^3): 11.35" 16).
  - repeat constructor. exists "MAC(MeV,cm^2/g,cm^2/g):".
    split; [reflexivity | discriminate].
  - reflexivity.
  - reflexivity.
Defined.

Lemma MassAttenCoeff_table_sizes_witness :
  List.length [1 # 2; 3 # 5; 4 # 5] = 3%nat /\
  List.length [807 # 5000; 78 # 625; 887 # 10000] =
  List.length [1 # 2; 3 # 5; 4 # 5].
Proof.
  apply (MassAttenCoeff_table_sizes Sample.stof Sample.fs "Lead"
           Sample.LeadData); reflexivity.
Defined.

Lemma MassAttenCoeff_short_table_witness :
  outcome (MassAttenCoeff Sample.stof
             (fun _ => Some (Str.unlines
                ["Density(g/cm^3): 2.7";
                 "MAC(MeV,cm^2/g,cm^2/g): 0.6 0.0780 0.0289"]))
             "Aluminum" 600) = Stop Undefined.
Proof.
  apply (MassAttenCoeff_short_table Sample.stof _ "Aluminum"
           (Str.unlines ["Density(g/cm^3): 2.7";
                         "MAC(MeV,cm^2/g,cm^2/g): 0.6 0.0780 0.0289"])
           600 [3 # 5] [39 # 500]).
  - reflexivity.
  - vm_compute. lia.
  - reflexivity.
Defined.

(** * Reading a line *)

Lemma prefix_empty (s : string) : String.prefix EmptyString s = true.
Proof. destruct s; reflexivity. Qed.

Lemma substring_none (s : string) (n : nat) : String.substring n 0 s = EmptyString.
Proof.
  revert n. induction s as [| c s IH]; intros [| n]; try reflexivity.
  simpl. apply IH.
Qed.

Lemma substring_whole (s : string) (m : nat) :
  (String.length s <= m)%nat -> String.substring 0 m s = s.
Proof.
  revert m. induction s as [| c s IH]; intros m Hm.
  - destruct m; reflexivity.
  - destruct m as [| m]; simpl in *; [lia |]. rewrite IH by lia. reflexivity.
Qed.

Lemma substring_head_append (a r : string) (m : nat) :
  String.substring 0 (String.length a + m) (a ++ r) =
  a ++ String.substring 0 m r.
Proof.
  induction a as [| c a IH]; simpl; [reflexivity |]. now rewrite IH.
Qed.

Lemma substring_skip_append (a r : string) (k m : nat) :
  String.substring (String.length a + k) m (a ++ r) = String.substring k m r.
Proof. induction a as [| c a IH]; simpl; [reflexivity | exact IH]. Qed.

Lemma index_skip_append (p a r : string) (k : nat) :
  String.index (String.length a + k) p (a ++ r) =
  option_map (Nat.add (String.length a)) (String.index k p r).
Proof.
  induction a as [| c a IH]; cbn [String.length append Nat.add].
  - destruct (String.index k p r); reflexivity.
  - cbn [String.index]. rewrite IH.
    destruct (String.index k p r); reflexivity.
Qed.

(** The first occurrence of a character that [a] does not hold. *)
Lemma index_char_append (c : ascii) (a r : string) :
  String.index 0 (String c EmptyString) a = None ->
  String.index 0 (String c EmptyString) (a ++ String c r) =
  Some (String.length a).
Proof.
  induction a as [| x a IH]; intros Hno.
  - cbn [append String.index String.prefix String.length].
    destruct (Ascii.ascii_dec c c) as [_ | Hne]; [| contradiction].
    now rewrite prefix_empty.
  - cbn [append String.index String.prefix String.length] in *.
    destruct (Ascii.ascii_dec c x) as [_ | Hne].
    + rewrite prefix_empty in Hno. discriminate.
    + destruct (String.index 0 (String c EmptyString) a) eqn:Ha;
        [discriminate |].
      now rewrite IH.
Qed.

(** A line made of a label without a space, a space and an argument is
    split back into the two. *)
Lemma line_split (l arg : string) :
  String.index 0 " " l = None ->
  Str.find_space (l ++ String " " arg) = Some (String.length l) /\
  Str.substr 0 (Some (String.length l)) (l ++ String " " arg) = l /\
  Str.substr (String.length l + 1) None (l ++ String " " arg) = arg.
Proof.
  intros Hno. split; [| split].
  - unfold Str.find_space, Str.find_space_from.
    now apply index_char_append.
  - unfold Str.substr.
    rewrite <- (Nat.add_0_r (String.length l)) at 1.
    rewrite substring_head_append, substring_none.
    clear. induction l as [| c l IH]; simpl; [reflexivity | now rewrite IH].
  - unfold Str.substr. rewrite substring_skip_append.
    cbn [String.substring]. apply substring_whole.
    clear. induction l as [| c l IH]; simpl; [lia | lia].
Qed.

Lemma substr_all (s : string) : Str.substr 0 None s = s.
Proof. unfold Str.substr. now apply substring_whole. Qed.

Lemma label_split (l arg : string) :
  String.index 0 " " l = None ->
  label (l ++ String " " arg) = Some l /\
  Str.substr (Str.next_pos (Str.find_space (l ++ String " " arg))) None
    (l ++ String " " arg) = arg.
Proof.
  intros Hno. destruct (line_split l arg Hno) as [Hn [Hl Ha]].
  unfold label. rewrite Hn, Hl. split; [reflexivity |].
  cbn [Str.next_pos].
  replace (S (String.length l)) with (String.length l + 1)%nat by lia.
  exact Ha.
Qed.

Section Lines.

Variable stof : string -> option Q.
Variable fs : string -> option string.

(** X9.  A line [Gamma(keV): ] followed by a text that [stof] reads as
    [e] reports [e] and sets the energy to [e]; the intensity stays. *)
Theorem Gamma_line_sets_energy (arg : string) (e : Q) (st : BeamState) :
  stof arg = Some e ->
  macro_line stof fs ("Gamma(keV): " ++ arg) st =
  ([MsgSettingEnergy e], Ok (mkBeam (I st) e)).
Proof.
  intros He.
  destruct (label_split "Gamma(keV):" arg eq_refl) as [Hl Ha].
  change ("Gamma(keV):" ++ String " " arg) with ("Gamma(keV): " ++ arg)
    in Hl, Ha.
  rewrite (macro_line_Gamma stof fs _ st Hl). cbv zeta. rewrite Ha.
  rewrite (call_stof_Some stof arg e He), !bind_ret. reflexivity.
Qed.

(** X10.  A line [Shield(type,cm): ] followed by a material name without
    a comma, a comma and a thickness calls [Transmit] on that material and
    that thickness, at the energy in force, and multiplies the intensity by
    what it returns. *)
Theorem Shield_line_calls_Transmit (absorber thickness : string)
        (st : BeamState) :
  String.index 0 "," absorber = None ->
  shield_args ("Shield(type,cm): " ++ absorber ++ "," ++ thickness) =
  (absorber, thickness) /\
  macro_line stof fs
    ("Shield(type,cm): " ++ absorber ++ "," ++ thickness) st =
  (print (MsgCalculating thickness absorber) ;;;
   T <- Transmit stof fs absorber thickness (E st) ;;
   print (MsgTransmitFrac T) ;;;
   print (MsgRemaining (I st * T)%R I_init) ;;;
   ret (mkBeam (I st * T)%R (E st))).
Proof.
  intros Hno.
  destruct (label_split "Shield(type,cm):" (absorber ++ "," ++ thickness)
              eq_refl) as [Hl Ha].
  change ("Shield(type,cm):" ++ String " " (absorber ++ "," ++ thickness))
    with ("Shield(type,cm): " ++ absorber ++ "," ++ thickness) in Hl, Ha.
  assert (Hargs : shield_args
                    ("Shield(type,cm): " ++ absorber ++ "," ++ thickness) =
                  (absorber, thickness)).
  { unfold shield_args. rewrite Ha.
    change (absorber ++ "," ++ thickness)
      with (absorber ++ String "," thickness).
    unfold Str.find_comma.
    rewrite (index_char_append "," absorber thickness Hno).
    cbn [Str.next_pos]. f_equal.
    - unfold Str.substr.
      rewrite <- (Nat.add_0_r (String.length absorber)) at 1.
      rewrite substring_head_append, substring_none.
      clear. induction absorber as [| c a IH]; simpl;
        [reflexivity | now rewrite IH].
    - unfold Str.substr.
      replace (S (String.length absorber))
        with (String.length absorber + 1)%nat by lia.
      rewrite substring_skip_append. cbn [String.substring].
      apply substring_whole.
      clear. induction absorber as [| c a IH]; simpl; lia. }
  split; [exact Hargs |].
  rewrite (macro_line_Shield stof fs _ st Hl), Hargs. reflexivity.
Qed.

(** X11.  A [Shield(type,cm):] line whose argument has no comma passes the
    whole argument to [Transmit] twice, as the material and as the
    thickness. *)
Theorem Shield_line_without_comma (arg : string) (st : BeamState) :
  String.index 0 "," arg = None ->
  shield_args ("Shield(type,cm): " ++ arg) = (arg, arg) /\
  macro_line stof fs ("Shield(type,cm): " ++ arg) st =
  (print (MsgCalculating arg arg) ;;;
   T <- Transmit stof fs arg arg (E st) ;;
   print (MsgTransmitFrac T) ;;;
   print (MsgRemaining (I st * T)%R I_init) ;;;
   ret (mkBeam (I st * T)%R (E st))).
Proof.
  intros Hno.
  destruct (label_split "Shield(type,cm):" arg eq_refl) as [Hl Ha].
  change ("Shield(type,cm):" ++ String " " arg)
    with ("Shield(type,cm): " ++ arg) in Hl, Ha.
  assert (Hargs : shield_args ("Shield(type,cm): " ++ arg) = (arg, arg)).
  { unfold shield_args. rewrite Ha. unfold Str.find_comma. rewrite Hno.
    cbn [Str.next_pos]. now rewrite substr_all. }
  split; [exact Hargs |].
  rewrite (macro_line_Shield stof fs _ st Hl), Hargs. reflexivity.
Qed.

(** X12.  A line that starts with a space has the empty label: the script
    loop passes over it without a word, and so do the two scans of a data
    file, whatever the line goes on to say. *)
Theorem indented_line_ignored (text : string) :
  (forall st, macro_line stof fs (String " " text) st = ([], Ok st)) /\
  (forall rest,
     Density_loop stof (String " " text :: rest) = Density_loop stof rest) /\
  (forall rest Es MACs,
     MassAttenCoeff_loop stof (String " " text :: rest) Es MACs =
     MassAttenCoeff_loop stof rest Es MACs).
Proof.
  assert (Hn : Str.find_space (String " " text) = Some 0%nat).
  { unfold Str.find_space, Str.find_space_from.
    cbn [String.index String.prefix].
    destruct (Ascii.ascii_dec " " " ") as [_ | Hne]; [| contradiction].
    now rewrite prefix_empty. }
  assert (Hl : Str.substr 0 (Some 0%nat) (String " " text) = EmptyString)
    by reflexivity.
  split; [| split].
  - intros st. apply (macro_line_other stof fs _ EmptyString).
    + unfold label. now rewrite Hn, Hl.
    + discriminate.
    + discriminate.
  - intros rest. cbn [Density_loop]. rewrite Hn, Hl. reflexivity.
  - intros rest Es MACs. cbn [MassAttenCoeff_loop]. rewrite Hn, Hl.
    reflexivity.
Qed.

(** X13.  A coefficient record with three fields hands [stof] the first
    field for the energy and, for the coefficient, the second field
    followed by a space and by as many characters of the third field as the
    first field has: the length given to [substr] is a position in the
    line. *)
Theorem MAC_record_fields (f0 f1 f2 : string) (rest : list string)
        (Es MACs : list Q) :
  String.index 0 " " f0 = None ->
  String.index 0 " " f1 = None ->
  MassAttenCoeff_loop stof
    (("MAC(MeV,cm^2/g,cm^2/g): " ++ f0 ++ " " ++ f1 ++ " " ++ f2) :: rest)
    Es MACs =
  (e <- call_stof stof f0 ;;
   m <- call_stof stof
          (f1 ++ " " ++ String.substring 0 (String.length f0) f2) ;;
   MassAttenCoeff_loop stof rest (Es ++ [e]) (MACs ++ [m])).
Proof.
  intros H0 H1.
  set (r := f1 ++ String " " f2).
  destruct (line_split "MAC(MeV,cm^2/g,cm^2/g):" (f0 ++ String " " r) eq_refl)
    as [Hn [Hl Ha]].
  change ("MAC(MeV,cm^2/g,cm^2/g): " ++ f0 ++ " " ++ f1 ++ " " ++ f2)
    with ("MAC(MeV,cm^2/g,cm^2/g):" ++ String " " (f0 ++ String " " r)).
  cbn [MassAttenCoeff_loop]. rewrite Hn, Hl, Ha.
  rewrite String.eqb_refl.
  destruct (line_split f0 r H0) as [Hn0 [Hl0 _]]. rewrite Hn0, Hl0.
  cbn [Str.next_pos].
  assert (Hsecond : Str.find_space_from (S (String.length f0))
                      (f0 ++ String " " r) =
                    Some (S (String.length f0) + String.length f1)%nat).
  { unfold Str.find_space_from.
    replace (S (String.length f0)) with (String.length f0 + 1)%nat at 1
      by lia.
    rewrite index_skip_append. cbn [String.index].
    unfold r. rewrite (index_char_append " " f1 f2 H1).
    cbn [option_map]. f_equal. lia. }
  rewrite Hsecond.
  assert (Harg1 : Str.substr (S (String.length f0))
                    (Some (S (String.length f0) + String.length f1)%nat)
                    (f0 ++ String " " r) =
                  f1 ++ " " ++ String.substring 0 (String.length f0) f2).
  { unfold Str.substr.
    replace (S (String.length f0)) with (String.length f0 + 1)%nat at 1
      by lia.
    rewrite substring_skip_append. cbn [String.substring]. unfold r.
    replace (S (String.length f0) + String.length f1)%nat
      with (String.length f1 + S (String.length f0))%nat by lia.
    rewrite substring_head_append. reflexivity. }
  rewrite Harg1. reflexivity.
Qed.

(** X14.  A coefficient record with a single field is taken without a
    complaint: the text of the field is read twice, and its value is
    stored both as the energy and as the coefficient. *)
Theorem MAC_record_single_field (f : string) (e : Q) (rest : list string)
        (Es MACs : list Q) :
  String.index 0 " " f = None ->
  stof f = Some e ->
  MassAttenCoeff_loop stof (("MAC(MeV,cm^2/g,cm^2/g): " ++ f) :: rest)
    Es MACs =
  MassAttenCoeff_loop stof rest (Es ++ [e]) (MACs ++ [e]).
Proof.
  intros Hno He.
  destruct (line_split "MAC(MeV,cm^2/g,cm^2/g):" f eq_refl) as [Hn [Hl Ha]].
  change ("MAC(MeV,cm^2/g,cm^2/g): " ++ f)
    with ("MAC(MeV,cm^2/g,cm^2/g):" ++ String " " f).
  cbn [MassAttenCoeff_loop]. rewrite Hn, Hl, Ha. rewrite String.eqb_refl.
  unfold Str.find_space, Str.find_space_from. rewrite Hno.
  cbn [Str.next_pos]. rewrite Hno, substr_all.
  now rewrite (call_stof_Some stof f e He), !bind_ret.
Qed.

End Lines.

Lemma Gamma_line_sets_energy_witness :
  macro_line Sample.stof Sample.fs "Gamma(keV): 662" initial =
  ([MsgSettingEnergy 662], Ok (mkBeam I_init 662)).
Proof.
  apply (Gamma_line_sets_energy Sample.stof Sample.fs "662" 662 initial).
  reflexivity.
Defined.

Lemma Shield_line_calls_Transmit_witness :
  shield_args "Shield(type,cm): Lead,1.0" = ("Lead", "1.0").
Proof.
  apply (Shield_line_calls_Transmit Sample.stof Sample.fs "Lead" "1.0"
           initial).
  reflexivity.
Defined.

Lemma Shield_line_without_comma_witness :
  shield_args "Shield(type,cm): Lead 1.0" = ("Lead 1.0", "Lead 1.0").
Proof.
  apply (Shield_line_without_comma Sample.stof Sample.fs "Lead 1.0" initial).
  reflexivity.
Defined.

Lemma MAC_record_fields_witness :
  MassAttenCoeff_loop Sample.stof
    ["MAC(MeV,cm^2/g,cm^2/g): 0.5 0.1614 0.0913"] [] [] =
  (e <- call_stof Sample.stof "0.5" ;;
   m <- call_stof Sample.stof "0.1614 0.0" ;;
   ret ([e], [m])).
Proof.
  apply (MAC_record_fields Sample.stof "0.5" "0.1614" "0.0913" [] [] []);
    reflexivity.
Defined.

Lemma MAC_record_single_field_witness :
  MassAttenCoeff_loop Sample.stof ["MAC(MeV,cm^2/g,cm^2/g): 0.5"] [] [] =
  ret ([1 # 2], [1 # 2]).
Proof.
  apply (MAC_record_single_field Sample.stof "0.5" (1 # 2) [] [] []);
    reflexivity.
Defined.

(** * More of the sequencer *)

Lemma length_append (a b : string) :
  String.length (a ++ b) = (String.length a + String.length b)%nat.
Proof. induction a as [| c a IH]; simpl; [reflexivity | now rewrite IH]. Qed.

Lemma append_cancel_r (s a b : string) : a ++ s = b ++ s -> a = b.
Proof.
  revert b. induction a as [| x a IH]; intros [| y b] H.
  - reflexivity.
  - exfalso. apply (f_equal String.length) in H.
    cbn [append String.length] in H. rewrite length_append in H. lia.
  - exfalso. apply (f_equal String.length) in H.
    cbn [append String.length] in H. rewrite length_append in H. lia.
  - cbn [append] in H. injection H as Hx H. subst y. f_equal. now apply IH.
Qed.

(** X15.  Two materials never share a data file: the path of the file
    determines the name of the material. *)
Theorem DataFilePath_injective (a b : string) :
  DataFilePath a = DataFilePath b -> a = b.
Proof.
  unfold DataFilePath. intros H. cbn [append] in H.
  injection H as H. now apply append_cancel_r in H.
Qed.

Lemma DataFilePath_injective_witness : "Lead" = "Lead".
Proof. apply (DataFilePath_injective "Lead" "Lead"). reflexivity. Defined.

Section MoreSequencer.

Variable stof : string -> option Q.
Variable fs : string -> option string.

(** One turn of the loop on a [Shield(type,cm):] line whose layer is
    computed. *)
Lemma macro_line_Shield_step (line : string) (st : BeamState) (T : R) :
  label line = Some "Shield(type,cm):" ->
  outcome (Transmit stof fs (fst (shield_args line))
             (snd (shield_args line)) (E st)) = Ok T ->
  exists o,
    macro_line stof fs line st = (o, Ok (mkBeam (I st * T)%R (E st))) /\
    fractions o = [T].
Proof.
  intros Hl HT. rewrite (macro_line_Shield stof fs line st Hl).
  destruct (shield_args line) as [absorber thickness]. cbn [fst snd] in HT.
  pose proof (quiet_Transmit stof fs absorber thickness (E st)) as Hq.
  unfold quiet in Hq.
  destruct (Transmit stof fs absorber thickness (E st)) as [o r].
  simpl in HT, Hq. subst r.
  eexists. split; [reflexivity |].
  cbn [app fractions]. rewrite fractions_app, Hq. reflexivity.
Qed.

(** X17.  After a script that is processed to its end, the energy is the
    value of its last [Gamma(keV):] line. *)
Theorem energy_of_last_Gamma (pre post : list string) (line : string)
        (st st' : BeamState) (out : list event) :
  label line = Some "Gamma(keV):" ->
  labelled "Gamma(keV):" post = [] ->
  macro_loop stof fs (pre ++ line :: post) st = (out, Ok st') ->
  stof (Str.substr (Str.next_pos (Str.find_space line)) None line) =
  Some (E st').
Proof.
  intros Hl Hpost H. rewrite macro_loop_app in H.
  apply bind_inv_Ok in H. destruct H as [o1 [st1 [o2 [_ [H _]]]]].
  cbn [macro_loop] in H. apply bind_inv_Ok in H.
  destruct H as [o3 [st2 [o4 [Hline [Hrest _]]]]].
  destruct (macro_loop_invariant stof fs _ _ _ _ Hrest) as [_ [_ HE]].
  rewrite (HE Hpost).
  rewrite (macro_line_Gamma stof fs line st1 Hl) in Hline. cbv zeta in Hline.
  unfold call_stof in Hline.
  destruct (stof _) as [e |]; [| discriminate].
  rewrite !bind_ret in Hline. simpl in Hline. now inversion Hline.
Qed.

(** X18.  The fraction of a layer does not depend on the layers before
    it: two [Shield(type,cm):] lines, in either order, report the
    fractions [Transmit] returns for each at the energy in force, multiply
    the intensity by them in the order of the lines, and leave the energy
    as it was. *)
Theorem layers_in_either_order (l1 l2 : string) (st : BeamState)
        (T1 T2 : R) :
  label l1 = Some "Shield(type,cm):" ->
  label l2 = Some "Shield(type,cm):" ->
  outcome (Transmit stof fs (fst (shield_args l1)) (snd (shield_args l1))
             (E st)) = Ok T1 ->
  outcome (Transmit stof fs (fst (shield_args l2)) (snd (shield_args l2))
             (E st)) = Ok T2 ->
  (exists o,
     macro_loop stof fs [l1; l2] st =
     (o, Ok (mkBeam (I st * T1 * T2)%R (E st))) /\
     fractions o = [T1; T2]) /\
  (exists o,
     macro_loop stof fs [l2; l1] st =
     (o, Ok (mkBeam (I st * T2 * T1)%R (E st))) /\
     fractions o = [T2; T1]).
Proof.
  intros H1 H2 HT1 HT2.
  assert (Hrun : forall la lb Ta Tb,
            label la = Some "Shield(type,cm):" ->
            label lb = Some "Shield(type,cm):" ->
            outcome (Transmit stof fs (fst (shield_args la))
                       (snd (shield_args la)) (E st)) = Ok Ta ->
            outcome (Transmit stof fs (fst (shield_args lb))
                       (snd (shield_args lb)) (E st)) = Ok Tb ->
            exists o,
              macro_loop stof fs [la; lb] st =
              (o, Ok (mkBeam (I st * Ta * Tb)%R (E st))) /\
              fractions o = [Ta; Tb]).
  { intros la lb Ta Tb Hla Hlb Ha Hb.
    destruct (macro_line_Shield_step la st Ta Hla Ha) as [oa [Hsa Hfa]].
    destruct (macro_line_Shield_step lb (mkBeam (I st * Ta)%R (E st)) Tb
                Hlb Hb) as [ob [Hsb Hfb]].
    cbn [I E] in Hsb.
    exists (oa ++ ob ++ [])%list. split.
    - cbn [macro_loop]. rewrite Hsa, bind_Ok, Hsb.
      unfold output, outcome. cbn [fst snd]. rewrite bind_Ok. reflexivity.
    - rewrite !fractions_app, Hfa, Hfb. reflexivity. }
  split; now apply Hrun.
Qed.

(** X20.  A layer of no thickness, of no density or of a zero coefficient
    lets everything through: [Transmit] returns 1. *)
Theorem Transmit_nothing_in_the_way (absorber thickness : string)
        (E t rho c : Q) :
  stof thickness = Some t ->
  outcome (Density stof fs absorber) = Ok rho ->
  outcome (MassAttenCoeff stof fs absorber E) = Ok c ->
  (c * rho * t == 0)%Q ->
  outcome (Transmit stof fs absorber thickness E) = Ok 1%R.
Proof.
  intros Ht Hrho Hc Hzero.
  rewrite (Transmit_outcome stof fs absorber thickness E t rho c Ht Hrho Hc).
  f_equal. unfold attenuation. rewrite <- exp_0. f_equal.
  apply Qeq_eqR in Hzero. rewrite !Q2R_mult, RMicromega.Q2R_0 in Hzero.
  Lra.lra.
Qed.

(** X21.  The lines of a script that have a label other than the two
    commands can be struck out: the run is the same without them. *)
Theorem unrecognized_lines_dropped (lines : list string) (st : BeamState) :
  macro_loop stof fs
    (filter (fun line => match label line with
                         | Some l => (l =? "Gamma(keV):")%string ||
                                     (l =? "Shield(type,cm):")%string
                         | None => true
                         end) lines) st =
  macro_loop stof fs lines st.
Proof.
  revert st. induction lines as [| line rest IH]; intros st; [reflexivity |].
  cbn [filter]. destruct (label line) as [l |] eqn:Hl.
  - destruct ((l =? "Gamma(keV):")%string ||
              (l =? "Shield(type,cm):")%string) eqn:Hrec.
    + cbn [macro_loop]. apply bind_ext. intros st'. apply IH.
    + apply orb_false_iff in Hrec. destruct Hrec as [Hg Hs].
      apply String.eqb_neq in Hg, Hs.
      cbn [macro_loop].
      rewrite (macro_line_other stof fs line l st Hl Hg Hs), bind_ret.
      apply IH.
  - cbn [macro_loop]. apply bind_ext. intros st'. apply IH.
Qed.

End MoreSequencer.

Lemma energy_of_last_Gamma_witness : Sample.stof "662" = Some 662.
Proof.
  apply (energy_of_last_Gamma Sample.stof Sample.fs
           ["Gamma(keV): 100"] ["Neutron(keV): 14000"] "Gamma(keV): 662"
           initial (mkBeam I_init 662)
           [MsgSettingEnergy 100; MsgSettingEnergy 662]);
    reflexivity.
Defined.

Lemma layers_in_either_order_witness :
  (exists o,
     macro_loop Sample.stof Sample.fs
       ["Shield(type,cm): Lead,1.0"; "Shield(type,cm): Lead,2.0"]
       (mkBeam I_init 662) =
     (o, Ok (mkBeam (I_init * attenuation (78 # 625) (227 # 20) 1 *
                     attenuation (78 # 625) (227 # 20) 2)%R 662)) /\
     fractions o = [attenuation (78 # 625) (227 # 20) 1;
                    attenuation (78 # 625) (227 # 20) 2]) /\
  (exists o,
     macro_loop Sample.stof Sample.fs
       ["Shield(type,cm): Lead,2.0"; "Shield(type,cm): Lead,1.0"]
       (mkBeam I_init 662) =
     (o, Ok (mkBeam (I_init * attenuation (78 # 625) (227 # 20) 2 *
                     attenuation (78 # 625) (227 # 20) 1)%R 662)) /\
     fractions o = [attenuation (78 # 625) (227 # 20) 2;
                    attenuation (78 # 625) (227 # 20) 1]).
Proof.
  apply (layers_in_either_order Sample.stof Sample.fs
           "Shield(type,cm): Lead,1.0" "Shield(type,cm): Lead,2.0"
           (mkBeam I_init 662)
           (attenuation (78 # 625) (227 # 20) 1)
           (attenuation (78 # 625) (227 # 20) 2));
    try reflexivity; apply Transmit_outcome; reflexivity.
Defined.

Lemma Transmit_nothing_in_the_way_witness :
  outcome (Transmit Sample.stof Sample.fs "Lead" "0" 662) = Ok 1%R.
Proof.
  apply (Transmit_nothing_in_the_way Sample.stof Sample.fs "Lead" "0" 662
           0 (227 # 20) (78 # 625)); reflexivity.
Defined.
